(** * react-prehydrate: the synthesized pre-paint routine and the value cell

    A shallow embedding of
    [packages/react-prehydrate/src/create-prehydrate-value.tsx]:

    - [generatePrehydrateScript], the text of the inline routine, and the
      routine itself (its lookup function [f] and the hook-set calls it emits);
    - [createPrehydrateValue]: the [Provider] initialiser, the triple write
      [set], the context check [useContext_] and the two read hooks
      [useValue] and [useHydratedValue].

    ECMAScript strings are sequences of UTF-16 code units; they are modelled
    as lists of code units, and the string built-ins the code calls
    ([indexOf], [substring], [encodeURIComponent], [Array.prototype.join])
    are written out after the language specification. *)

From Stdlib Require Import ZArith NArith Ascii String List Lia Bool.
From stdpp Require Import base option list gmap.

Local Open Scope Z_scope.

(** ** ECMAScript strings *)

Abbreviation jsstring := (list N).

(** The code units of an ASCII literal. *)
Definition js (s : string) : jsstring :=
  List.map N_of_ascii (list_ascii_of_string s).
Arguments js : simpl never.

Definition dquote : N := 34%N.
Definition semicolon : N := 59%N.
Definition equals_sign : N := 61%N.

(** A double-quoted string literal with body [s], as a template literal
    [`"${s}"`] builds it (nothing in [s] is escaped). *)
Definition quoted (s : jsstring) : jsstring := dquote :: s ++ [dquote].

(** [Array.prototype.join]: the elements separated by [sep]. *)
Fixpoint join (sep : jsstring) (parts : list jsstring) : jsstring :=
  match parts with
  | [] => []
  | [x] => x
  | x :: rest => x ++ sep ++ join sep rest
  end.

(** Whether [p] is a prefix of [s], code unit by code unit. *)
Fixpoint startsWith (p s : jsstring) : bool :=
  match p, s with
  | [], _ => true
  | _ :: _, [] => false
  | a :: p', b :: s' => (a =? b)%N && startsWith p' s'
  end.

(** [StringIndexOf] from offset 0: the least [k] such that [p] occurs in [s]
    at [k]. *)
Fixpoint stringIndexOf (s p : jsstring) : option nat :=
  if startsWith p s then Some 0%nat
  else match s with
       | [] => None
       | _ :: s' => S <$> stringIndexOf s' p
       end.

(** [String.prototype.indexOf(p, position)]: [position] is clamped to
    [0 .. length s]; the result is -1 when [p] does not occur from there. *)
Definition indexOf (s p : jsstring) (position : Z) : Z :=
  let start := Z.to_nat (Z.min (Z.max position 0) (Z.of_nat (length s))) in
  match stringIndexOf (drop start s) p with
  | Some k => Z.of_nat (start + k)
  | None => -1
  end.

(** [String.prototype.substring(a, b)]: both bounds are clamped to
    [0 .. length s] and swapped when the first exceeds the second. *)
Definition substring (s : jsstring) (a b : Z) : jsstring :=
  let len := Z.of_nat (length s) in
  let a' := Z.min (Z.max a 0) len in
  let b' := Z.min (Z.max b 0) len in
  let from := Z.min a' b' in
  let to := Z.max a' b' in
  take (Z.to_nat (to - from)) (drop (Z.to_nat from) s).

(** ** Value descriptors *)

Record PrehydrateValueConfig := {
  cookie : jsstring;
  cssVar : jsstring;
  defaultValue : jsstring;
}.

(** ** The synthesized routine: its text *)

(** One hook-set call:
    [`s.setProperty("${c.cssVar}",f("${c.cookie}","${c.defaultValue}"))`]. *)
Definition setter (c : PrehydrateValueConfig) : jsstring :=
  js "s.setProperty(" ++ quoted (cssVar c) ++ js ",f(" ++ quoted (cookie c)
    ++ js "," ++ quoted (defaultValue c) ++ js "))".

Definition setters (configs : list PrehydrateValueConfig) : jsstring :=
  join (js ";") (setter <$> configs).

(** The lines of the array literal that precede [setters]. *)
Definition routine_head : list jsstring :=
  [ js "(function(){";
    js "var c=" ++ quoted (js "; ") ++ js "+document.cookie,";
    js "s=document.documentElement.style,";
    js "f=function(n,d){";
    js "var p=" ++ quoted (js "; ") ++ js "+n+" ++ quoted (js "=")
      ++ js ",i=c.indexOf(p);";
    js "if(i<0)return d;";
    js "var j=c.indexOf(" ++ quoted (js ";") ++ js ",i+1);";
    js "return c.substring(i+p.length,j<0?c.length:j)";
    js "};" ].

Definition generatePrehydrateScript
    (configs : list PrehydrateValueConfig) : jsstring :=
  join [] (routine_head ++ [setters configs; js "}())"]).

(** ** The document: pre-paint hooks and the cookie store

    The host environment is modelled as far as the code observes it.  The
    style declaration of the root element is the flat key-value state the
    test suite's fake document uses ([setProps[name] = value]); a property
    never set reads as the empty string.  A real declaration is that
    key-value state for a custom property name and a value it keeps as
    written ([custom_property_name] and [verbatim_value] below); it trims
    other values, replaces an unpaired surrogate and may refuse a value,
    so what is stated about the value a hook holds is stated for those
    names and values only.  The cookie store keeps name-value pairs;
    attributes are not interpreted: every write this program issues
    carries [path=/;max-age=31536000;SameSite=Lax], under which the pair
    is stored for the whole site.  [cookieWrites] is the trace of the
    strings assigned to [document.cookie], the latest first. *)

Record Document := {
  style : gmap jsstring jsstring;
  cookieJar : list (jsstring * jsstring);
  cookieWrites : list jsstring;
}.

Definition getPropertyValue (name : jsstring) (d : Document) : jsstring :=
  default [] (style d !! name).

(** [style.setProperty(name, value)] on the key-value state. *)
Definition setProperty (name value : jsstring) (d : Document) : Document :=
  {| style := <[name := value]> (style d);
     cookieJar := cookieJar d;
     cookieWrites := cookieWrites d |}.

Definition cookie_entry (e : jsstring * jsstring) : jsstring :=
  e.1 ++ js "=" ++ e.2.

(** How a stored pair reads: [name=value], and the value alone for a
    cookie without a name. *)
Definition cookie_text (e : jsstring * jsstring) : jsstring :=
  match e.1 with
  | [] => e.2
  | _ :: _ => cookie_entry e
  end.

(** Reading [document.cookie]: the stored pairs, separated by ["; "]. *)
Definition document_cookie (d : Document) : jsstring :=
  join (js "; ") (cookie_text <$> cookieJar d).

Definition is_wsp (c : N) : bool := (c =? 32)%N || (c =? 9)%N.

Fixpoint trim_start (s : jsstring) : jsstring :=
  match s with
  | [] => []
  | c :: s' => if is_wsp c then trim_start s' else s
  end.

Definition trim (s : jsstring) : jsstring :=
  rev (trim_start (rev (trim_start s))).

Fixpoint before_semicolon (s : jsstring) : jsstring :=
  match s with
  | [] => []
  | c :: s' => if (c =? semicolon)%N then [] else c :: before_semicolon s'
  end.

(** The name-value pair of a cookie string: the text before the first [;],
    split at its first [=], both sides trimmed.  A text without [=] is the
    value of a cookie without a name.  Nothing is stored when both the
    name and the value are empty. *)
Definition cookie_pair (s : jsstring) : option (jsstring * jsstring) :=
  let nv := before_semicolon s in
  let pair :=
    match stringIndexOf nv (js "=") with
    | None => ([], trim nv)
    | Some k => (trim (take k nv), trim (drop (S k) nv))
    end in
  match pair with
  | ([], []) => None
  | _ => Some pair
  end.

(** A pair replaces the stored pair of the same name, or is added last. *)
Fixpoint jar_store (name value : jsstring) (jar : list (jsstring * jsstring))
    : list (jsstring * jsstring) :=
  match jar with
  | [] => [(name, value)]
  | e :: rest =>
      if decide (e.1 = name) then (name, value) :: rest
      else e :: jar_store name value rest
  end.

(** Assigning to [document.cookie]. *)
Definition document_cookie_assign (s : jsstring) (d : Document) : Document :=
  {| style := style d;
     cookieJar := match cookie_pair s with
                  | Some (name, value) => jar_store name value (cookieJar d)
                  | None => cookieJar d
                  end;
     cookieWrites := s :: cookieWrites d |}.


(** ** The synthesized routine: what it computes *)

Module Routine.

(** [f(n,d)] of the emitted text, with the normalized buffer [c] it closes
    over made a parameter. *)
Definition f (c n d : jsstring) : jsstring :=
  let p := js "; " ++ n ++ js "=" in
  let i := indexOf c p 0 in
  if i <? 0 then d
  else
    let j := indexOf c (js ";") (i + 1) in
    substring c (i + Z.of_nat (length p))
      (if j <? 0 then Z.of_nat (length c) else j).

(** Executing the emitted routine: [c] is read once, then one [setProperty]
    call per descriptor, in input order.  This is what the text of
    [generatePrehydrateScript] does as a script when every field of every
    descriptor is the body of a string literal as it stands (no quote,
    backslash or line break: [literal_fields] below); a field that holds
    one of these changes the program, and nothing is stated about [run]
    for such descriptors except for the empty list, which has no field. *)
Definition run (configs : list PrehydrateValueConfig) (d : Document)
    : Document :=
  let c := js "; " ++ document_cookie d in
  fold_left
    (fun doc cfg =>
       setProperty (cssVar cfg)
         (f c (cookie cfg) (defaultValue cfg)) doc)
    configs d.

End Routine.

(** ** [encodeURIComponent] *)

Section Encode.
Local Open Scope N_scope.

Definition in_range (lo hi c : N) : bool := (lo <=? c) && (c <=? hi).

(** The characters [encodeURIComponent] leaves alone: letters, digits and
    [- _ . ! ~ * ' ( )]. *)
Definition unreserved (c : N) : bool :=
  in_range 65 90 c || in_range 97 122 c || in_range 48 57 c
  || bool_decide (c ∈ [45; 95; 46; 33; 126; 42; 39; 40; 41]).

Definition hex_digit (n : N) : N := if n <? 10 then 48 + n else 55 + n.

Definition percent (byte : N) : jsstring :=
  [37; hex_digit (byte / 16); hex_digit (byte mod 16)].

Definition utf8 (cp : N) : list N :=
  if cp <? 128 then [cp]
  else if cp <? 2048 then [192 + cp / 64; 128 + cp mod 64]
  else if cp <? 65536 then
    [224 + cp / 4096; 128 + (cp / 64) mod 64; 128 + cp mod 64]
  else
    [240 + cp / 262144; 128 + (cp / 4096) mod 64; 128 + (cp / 64) mod 64;
     128 + cp mod 64].

Definition escape (cp : N) : jsstring := mjoin (percent <$> utf8 cp).

Definition is_lead (c : N) : bool := in_range 55296 56319 c.
Definition is_trail (c : N) : bool := in_range 56320 57343 c.

(** [None] stands for the [URIError] raised on an unpaired surrogate. *)
Fixpoint encodeURIComponent (s : jsstring) : option jsstring :=
  match s with
  | [] => Some []
  | c :: rest =>
      if unreserved c then (c ::.) <$> encodeURIComponent rest
      else if is_lead c then
        match rest with
        | c2 :: rest' =>
            if is_trail c2 then
              (escape ((c - 55296) * 1024 + (c2 - 56320) + 65536) ++.)
                <$> encodeURIComponent rest'
            else None
        | [] => None
        end
      else if is_trail c then None
      else (escape c ++.) <$> encodeURIComponent rest
  end.

End Encode.

(** ** The value cell: [createPrehydrateValue]

    A call either completes with a value or throws. *)

Inductive JsError :=
| ReferenceError          (* [document] is not defined *)
| URIError                (* [encodeURIComponent] met an unpaired surrogate *)
| Error (message : jsstring).

Inductive Completion (A : Type) :=
| Normal (a : A)
| Throw (e : JsError).
Arguments Normal {A} a.
Arguments Throw {A} e.

(** The state one cell's subtree keeps: the global [document] ([None] where
    [typeof document === "undefined"]), the state cell [value] of the
    [Provider], and the hook state of one [useHydratedValue] call site: its
    state cell [mounted] and whether its effect is queued and has not run.
    [currentValue] is what the next render of the [Provider] reads. *)
Record App := {
  document : option Document;
  currentValue : jsstring;
  mounted : bool;
  effectQueued : bool;
}.

(** Statements run in sequence on the state; a throw ends the sequence and
    keeps the effects made so far. *)
Definition M (A : Type) : Type := App -> Completion A * App.

Definition ret {A} (a : A) : M A := fun st => (Normal a, st).

Definition bind {A B} (m : M A) (k : A -> M B) : M B :=
  fun st =>
    match m st with
    | (Normal a, st') => k a st'
    | (Throw e, st') => (Throw e, st')
    end.

Definition throw {A} (e : JsError) : M A := fun st => (Throw e, st).

Notation "x <- m ;; k" := (bind m (fun x => k))
  (at level 100, m at next level, right associativity).
Notation "m ;; k" := (bind m (fun _ => k))
  (at level 100, right associativity).

(** [setValue(next)] of the [Provider]'s state cell. *)
Definition setValue (next : jsstring) : M unit :=
  fun st =>
    (Normal tt,
     {| document := document st; currentValue := next;
        mounted := mounted st; effectQueued := effectQueued st |}).

(** A statement on [document]; it throws where there is none. *)
Definition on_document (g : Document -> Document) : M unit :=
  fun st =>
    match document st with
    | None => (Throw ReferenceError, st)
    | Some d =>
        (Normal tt,
         {| document := Some (g d); currentValue := currentValue st;
            mounted := mounted st; effectQueued := effectQueued st |})
    end.

Definition encodeURIComponent_call (s : jsstring) : M jsstring :=
  match encodeURIComponent s with
  | Some e => ret e
  | None => throw URIError
  end.

Section Cell.
Variable config : PrehydrateValueConfig.

(** The initialiser of the [Provider]'s [useState]. *)
Definition Provider_init (doc : option Document) : jsstring :=
  match doc with
  | None => defaultValue config
  | Some d =>
      let current := getPropertyValue (cssVar config) d in
      match current with
      | [] => defaultValue config
      | _ :: _ => current
      end
  end.

(** The template literal assigned to [document.cookie]. *)
Definition cookie_assignment (encoded : jsstring) : jsstring :=
  cookie config ++ js "=" ++ encoded
    ++ js ";path=/;max-age=31536000;SameSite=Lax".

Definition set (next : jsstring) : M unit :=
  setValue next ;;
  on_document (setProperty (cssVar config) next) ;;
  encoded <- encodeURIComponent_call next ;;
  on_document (document_cookie_assign (cookie_assignment encoded)).

(** What a context holds: [null], or the pair [[value, set]] a [Provider]
    supplies. *)
Definition ContextValue : Type := option (jsstring * (jsstring -> M unit)).

(** What [<Provider>] passes down on a render. *)
Definition Provider (st : App) : ContextValue :=
  Some (currentValue st, set).

Definition useContext_ (ctx : ContextValue)
    : Completion (jsstring * (jsstring -> M unit)) :=
  match ctx with
  | None =>
      Throw (Error (js "useValue/useHydratedValue must be used within a <Provider> for "
                      ++ quoted (cookie config)))
  | Some c => Normal c
  end.

Definition useValue (ctx : ContextValue)
    : Completion (jsstring * (jsstring -> M unit)) :=
  useContext_ ctx.

(** One render of [useHydratedValue]; [is_mounted] is the content of its
    state cell [mounted].  The effect [() => setMounted(true)] it registers
    is [run_effects] below. *)
Definition useHydratedValue (ctx : ContextValue) (is_mounted : bool)
    : Completion (option jsstring * (jsstring -> M unit)) :=
  match useContext_ ctx with
  | Throw e => Throw e
  | Normal (value, setValue) =>
      Normal (if is_mounted then Some value else None, setValue)
  end.

(** The first render of the subtree.  An interactive render queues the
    effect; a non-interactive one ([renderToStaticMarkup], the server)
    never runs effects. *)
Definition first_render (doc : option Document) (interactive : bool) : App :=
  {| document := doc; currentValue := Provider_init doc;
     mounted := false; effectQueued := interactive |}.

(** The mount transition: the queued effect runs, once. *)
Definition run_effects (st : App) : App :=
  if effectQueued st then
    {| document := document st; currentValue := currentValue st;
       mounted := true; effectQueued := false |}
  else st.

Inductive Event :=
| RunEffects
| CallSet (next : jsstring).

Definition step (st : App) (e : Event) : App :=
  match e with
  | RunEffects => run_effects st
  | CallSet next => (set next st).2
  end.

Definition run_events (st : App) (es : list Event) : App :=
  fold_left step es st.

(** The two read operations on the current state, under the [Provider]. *)
Definition readForPresentation (st : App) :=
  useValue (Provider st).

Definition readForText (st : App) :=
  useHydratedValue (Provider st) (mounted st).

End Cell.

(** ** Vocabulary of the properties *)

(** The number of positions at which [needle] occurs in [s]. *)
Fixpoint occurrences (needle s : jsstring) : nat :=
  match s with
  | [] => 0
  | _ :: s' =>
      ((if startsWith needle s then 1 else 0) + occurrences needle s')%nat
  end.

(** No field of the descriptor contains [needle]. *)
Definition fields_free_of (needle : jsstring) (c : PrehydrateValueConfig)
    : Prop :=
  occurrences needle (cssVar c) = 0%nat
  /\ occurrences needle (cookie c) = 0%nat
  /\ occurrences needle (defaultValue c) = 0%nat.

(** The bracket that closes [c], when [c] opens one. *)
Definition closer (c : N) : option N :=
  if (c =? 40)%N then Some 41%N
  else if (c =? 123)%N then Some 125%N
  else if (c =? 91)%N then Some 93%N
  else None.

(** Brackets are balanced outside string literals, and every string
    literal is closed and free of escapes.  [stack] holds the closing
    brackets still expected. *)
Fixpoint balanced_from (stack : list N) (in_string : bool) (s : jsstring)
    : bool :=
  match s with
  | [] => negb in_string && bool_decide (stack = [])
  | c :: s' =>
      if in_string then
        if (c =? dquote)%N then balanced_from stack false s'
        else if (c =? 92)%N then false
        else balanced_from stack true s'
      else if (c =? dquote)%N then balanced_from stack true s'
      else
        match closer c with
        | Some k => balanced_from (k :: stack) false s'
        | None =>
            if bool_decide (c ∈ [41%N; 125%N; 93%N]) then
              match stack with
              | k :: stack' => (c =? k)%N && balanced_from stack' false s'
              | [] => false
              end
            else balanced_from stack false s'
        end
  end.

Definition balanced (s : jsstring) : bool := balanced_from [] false s.

(** An entry of the normalized buffer: the pair preceded by the delimiter. *)
Definition entry_text (e : jsstring * jsstring) : jsstring :=
  js "; " ++ cookie_entry e.

(** The value stored under [name]: that of the first pair so named. *)
Fixpoint jar_lookup (name : jsstring) (jar : list (jsstring * jsstring))
    : option jsstring :=
  match jar with
  | [] => None
  | e :: rest => if decide (e.1 = name) then Some e.2 else jar_lookup name rest
  end.

(** The pairs a cookie store can hold: no [;] in a name or a value, no [=]
    in a name. *)
Definition jar_wf (jar : list (jsstring * jsstring)) : Prop :=
  Forall
    (fun e => (semicolon ∉ e.1) /\ (equals_sign ∉ e.1) /\ (semicolon ∉ e.2))
    jar.

(** A code unit a cookie pair holds unescaped: not [;], [=], space or
    tab. *)
Definition plain (c : N) : Prop :=
  c <> semicolon /\ c <> equals_sign /\ is_wsp c = false.

(** A name the cookie store keeps as written: not empty, without [;], [=],
    space or tab. *)
Definition cookie_name_ok (name : jsstring) : Prop :=
  name <> [] /\ Forall plain name.

(** The persisted-store write format in the words of the specification. *)
Definition spec_write_format (storeKey encoded : jsstring) : jsstring :=
  storeKey ++ js "=" ++ encoded
    ++ js "; path=/; max-age=31536000; SameSite=Lax".


Definition empty_document : Document :=
  {| style := ∅; cookieJar := []; cookieWrites := [] |}.

(** Descriptors of the test suite. *)
Definition sw_config : PrehydrateValueConfig :=
  {| cookie := js "sw"; cssVar := js "--sw"; defaultValue := js "280" |}.


(** ** The example application

    [examples/next-resizable-sidebars/app/prehydrate.ts]: the two cells and
    the descriptor list handed to the one [<PrehydrateScript>]. *)

Definition leftSidebarWidth : PrehydrateValueConfig :=
  {| cookie := js "left-sidebar-width";
     cssVar := js "--left-sidebar-width";
     defaultValue := js "280" |}.

Definition rightSidebarWidth : PrehydrateValueConfig :=
  {| cookie := js "right-sidebar-width";
     cssVar := js "--right-sidebar-width";
     defaultValue := js "280" |}.

Definition allPrehydrateValues : list PrehydrateValueConfig :=
  [leftSidebarWidth; rightSidebarWidth].

(** [app/components/sidebar.tsx]: the cell of each side. *)
Inductive Side := Left | Right.

Definition values (side : Side) : PrehydrateValueConfig :=
  match side with
  | Left => leftSidebarWidth
  | Right => rightSidebarWidth
  end.

(** What [WidthLabel] renders: the skeleton placeholder, or a [<span>]
    with the given text content. *)
Inductive Element :=
| Skeleton
| Span (text : jsstring).

(** [WidthLabel({ side })]: the skeleton while the hydrated value is
    [null], then [<span>{width}px</span>]. *)
Definition WidthLabel (side : Side) (ctx : ContextValue) (is_mounted : bool)
    : Completion Element :=
  match useHydratedValue (values side) ctx is_mounted with
  | Throw e => Throw e
  | Normal (None, _) => Normal Skeleton
  | Normal (Some width, _) => Normal (Span (width ++ js "px"))
  end.

(** [WidthLabel] as rendered under the [Provider] of its side. *)
Definition render_WidthLabel (side : Side) (st : App) : Completion Element :=
  WidthLabel side (Provider (values side) st) (mounted st).

(** ** Further vocabulary *)

(** [String.prototype.isWellFormed]: every surrogate is half of a pair. *)
Fixpoint isWellFormed (s : jsstring) : bool :=
  match s with
  | [] => true
  | c :: rest =>
      if is_lead c then
        match rest with
        | c2 :: rest' => is_trail c2 && isWellFormed rest'
        | [] => false
        end
      else if is_trail c then false
      else isWellFormed rest
  end.

(** The argument of the last [CallSet] of a trace. *)
Fixpoint last_set (es : list Event) : option jsstring :=
  match es with
  | [] => None
  | RunEffects :: rest => last_set rest
  | CallSet x :: rest =>
      match last_set rest with
      | Some y => Some y
      | None => Some x
      end
  end.

(** The percent-encoding of the argument of the last [CallSet] of a trace
    whose argument [encodeURIComponent] accepts. *)
Definition last_encoded (es : list Event) : option jsstring :=
  last (omap (fun e => match e with
                       | CallSet x => encodeURIComponent x
                       | RunEffects => None
                       end) es).

(** A code unit that may stand in the body of a double-quoted literal as
    it is: not the quote, the backslash or a line break. *)
Definition literal_unit (c : N) : Prop :=
  c <> dquote /\ c ∉ [92%N; 10%N; 13%N].

Definition literal_fields (c : PrehydrateValueConfig) : Prop :=
  Forall literal_unit (cssVar c)
  /\ Forall literal_unit (cookie c)
  /\ Forall literal_unit (defaultValue c).

(** Reading a text that has double-quoted literals without escapes and
    nothing else that quotes (no comment, no other kind of literal): the
    text with every literal body removed, and the bodies in order.  [None]
    for a literal left open or holding a backslash or a line break. *)
Fixpoint lex (in_literal : bool) (s : jsstring)
    : option (jsstring * list jsstring) :=
  match s with
  | [] => if in_literal then None else Some ([], [])
  | c :: s' =>
      if in_literal then
        if (c =? dquote)%N then
          '(code, bodies) ← lex false s';
          Some (dquote :: code, [] :: bodies)
        else if bool_decide (c ∈ [92%N; 10%N; 13%N]) then None
        else
          '(code, bodies) ← lex true s';
          match bodies with
          | b :: bs => Some (code, (c :: b) :: bs)
          | [] => None
          end
      else if (c =? dquote)%N then
        '(code, bodies) ← lex true s';
        Some (dquote :: code, bodies)
      else
        '(code, bodies) ← lex false s';
        Some (c :: code, bodies)
  end.

(** A descriptor with empty fields. *)
Definition blank_config : PrehydrateValueConfig :=
  {| cookie := []; cssVar := []; defaultValue := [] |}.

(** The fields of the descriptors in the order the template uses them. *)
Definition fields_of (configs : list PrehydrateValueConfig)
    : list jsstring :=
  configs ≫= fun c => [cssVar c; cookie c; defaultValue c].

(** A code unit of a name: a letter, a digit, [-] or [_]. *)
Definition ident_unit (c : N) : bool :=
  in_range 65 90 c || in_range 97 122 c || in_range 48 57 c
  || bool_decide (c ∈ [45%N; 95%N]).

(** A code unit of a plain value: a code unit of a name, or [.]. *)
Definition css_plain (c : N) : bool := ident_unit c || (c =? 46)%N.

(** A value every style declaration keeps as written: letters, digits,
    [-], [_] and [.] only. *)
Definition verbatim_value (x : jsstring) : Prop :=
  Forall (fun c => css_plain c = true) x.

(** A custom property name: [--] and then at least one code unit of a
    name. *)
Definition custom_property_name (v : jsstring) : bool :=
  startsWith (js "--") v
  && negb (bool_decide (drop 2 v = []))
  && forallb ident_unit (drop 2 v).


(** Every stored cookie has a name. *)
Definition jar_named (jar : list (jsstring * jsstring)) : Prop :=
  Forall (fun e => e.1 <> []) jar.

(** The code units the descriptor adds to the text: its call is 26 code
    units of template around the three fields. *)
Definition setter_size (c : PrehydrateValueConfig) : nat :=
  (26 + length (cssVar c) + length (cookie c) + length (defaultValue c))%nat.

(** * Properties *)

(** ** Strings *)

Lemma startsWith_app (p t : jsstring) : startsWith p (p ++ t) = true.
Proof.
  induction p as [|a p IH]; simpl; [done|].
  by rewrite N.eqb_refl.
Qed.

Lemma startsWith_inv (p s : jsstring) :
  startsWith p s = true -> exists t, s = p ++ t.
Proof.
  revert s; induction p as [|a p IH]; intros s H; simpl in *.
  - by exists s.
  - destruct s as [|b s]; [done|].
    apply andb_prop in H as [Hab H].
    apply N.eqb_eq in Hab as ->.
    destruct (IH _ H) as [t ->]. by exists t.
Qed.

Lemma startsWith_nil_r (p : jsstring) : p <> [] -> startsWith p [] = false.
Proof. by destruct p. Qed.

Lemma startsWith_head_neq (a b : N) (p s : jsstring) :
  a <> b -> startsWith (a :: p) (b :: s) = false.
Proof.
  intros H; simpl. by apply N.eqb_neq in H as ->.
Qed.

Lemma stringIndexOf_Some (s p : jsstring) (k : nat) :
  stringIndexOf s p = Some k ->
  startsWith p (drop k s) = true
  /\ (k <= length s)%nat
  /\ forall k', (k' < k)%nat -> startsWith p (drop k' s) = false.
Proof.
  revert k; induction s as [|b s IH]; intros k; simpl.
  - destruct (startsWith p []) eqn:E; [|done].
    intros [= <-]. split_and!; [done|lia|intros; lia].
  - destruct (startsWith p (b :: s)) eqn:E.
    + intros [= <-]. split_and!; [done|lia|intros; lia].
    + destruct (stringIndexOf s p) as [k0|] eqn:Ek; [|done].
      intros [= <-]. destruct (IH k0 eq_refl) as (H1 & H2 & H3).
      split_and!; [done|simpl; lia|].
      intros [|k'] Hk'; [done|]. simpl. apply H3. lia.
Qed.

Lemma stringIndexOf_None (s p : jsstring) :
  stringIndexOf s p = None -> forall k, startsWith p (drop k s) = false.
Proof.
  induction s as [|b s IH]; simpl.
  - destruct (startsWith p []) eqn:E; [done|].
    intros _ k. by rewrite drop_nil.
  - destruct (startsWith p (b :: s)) eqn:E; [done|].
    destruct (stringIndexOf s p) eqn:Ek; [done|].
    intros _ [|k]; [done|]. simpl. by apply IH.
Qed.

Lemma stringIndexOf_here (s p : jsstring) :
  startsWith p s = true -> stringIndexOf s p = Some 0%nat.
Proof. intros H. destruct s; simpl; by rewrite H. Qed.

Lemma stringIndexOf_skip (a b p : jsstring) :
  (forall k, (k < length a)%nat -> startsWith p (drop k (a ++ b)) = false) ->
  stringIndexOf (a ++ b) p
  = (fun k => (length a + k)%nat) <$> stringIndexOf b p.
Proof.
  induction a as [|x a IH]; intros H.
  - simpl. by destruct (stringIndexOf b p).
  - pose proof (H 0%nat ltac:(simpl; lia)) as H0.
    change ((x :: a) ++ b) with (x :: (a ++ b)) in *. simpl in H0 |- *.
    rewrite H0, IH.
    + by destruct (stringIndexOf b p).
    + intros k Hk. apply (H (S k)). simpl; lia.
Qed.

Lemma js_semicolon : js ";" = [semicolon].
Proof. reflexivity. Qed.

Lemma js_equals : js "=" = [equals_sign].
Proof. reflexivity. Qed.

Lemma js_delimiter : js "; " = [semicolon; 32%N].
Proof. reflexivity. Qed.

Lemma startsWith_semicolon (c : N) (s : jsstring) :
  startsWith [semicolon] (c :: s) = (c =? semicolon)%N.
Proof. cbn [startsWith]. rewrite andb_true_r. apply N.eqb_sym. Qed.

(** Searching for [;] is what [before_semicolon] does. *)
Lemma stringIndexOf_semicolon (s : jsstring) :
  match stringIndexOf s [semicolon] with
  | Some k => before_semicolon s = take k s /\ (k < length s)%nat
  | None => before_semicolon s = s /\ semicolon ∉ s
  end.
Proof.
  induction s as [|c s IH].
  - simpl. split; [done|]. apply not_elem_of_nil.
  - cbn [stringIndexOf before_semicolon]. rewrite startsWith_semicolon.
    destruct (c =? semicolon)%N eqn:E.
    + simpl. split; [done|lia].
    + apply N.eqb_neq in E.
      destruct (stringIndexOf s [semicolon]) as [k|]; simpl.
      * destruct IH as [-> ?]. split; [done|lia].
      * destruct IH as [-> ?]. split; [done|].
        rewrite not_elem_of_cons. by split.
Qed.


Lemma stringIndexOf_semicolon_app (a b : jsstring) :
  semicolon ∉ a ->
  stringIndexOf (a ++ b) [semicolon]
  = (fun k => (length a + k)%nat) <$> stringIndexOf b [semicolon].
Proof.
  intros Ha. apply stringIndexOf_skip. intros k Hk.
  rewrite drop_app_le by lia.
  destruct (drop k a) as [|c t] eqn:E.
  - apply (f_equal length) in E. rewrite length_drop in E. simpl in E. lia.
  - change ((c :: t) ++ b) with (c :: (t ++ b)).
    rewrite startsWith_semicolon. apply N.eqb_neq. intros ->.
    apply Ha. rewrite <- (take_drop k a), E.
    apply elem_of_app. right. apply list_elem_of_here.
Qed.

Lemma substring_take_drop (s : jsstring) (a b : nat) :
  (a <= b <= length s)%nat ->
  substring s (Z.of_nat a) (Z.of_nat b) = take (b - a) (drop a s).
Proof.
  intros H. unfold substring.
  rewrite (Z.max_l (Z.of_nat a)), (Z.max_l (Z.of_nat b)) by lia.
  rewrite (Z.min_l (Z.of_nat a)), (Z.min_l (Z.of_nat b)) by lia.
  rewrite Z.min_l, Z.max_r by lia.
  f_equal; [lia|]. by rewrite Nat2Z.id.
Qed.

Lemma indexOf_stringIndexOf (s p : jsstring) (start : nat) :
  (start <= length s)%nat ->
  indexOf s p (Z.of_nat start)
  = match stringIndexOf (drop start s) p with
    | Some k => Z.of_nat (start + k)
    | None => -1
    end.
Proof.
  intros H. unfold indexOf.
  rewrite Z.max_l, Z.min_l by lia. by rewrite Nat2Z.id.
Qed.

(** *** The lookup on an arbitrary buffer *)

(** With no [;] in the name, the lookup returns the text between the end
    of the first match of ["; " + n + "="] and the next [;] or the end. *)
Lemma f_first_match (c n d : jsstring) :
  semicolon ∉ n ->
  Routine.f c n d
  = match stringIndexOf c (js "; " ++ n ++ js "=") with
    | None => d
    | Some i =>
        before_semicolon (drop (i + length (js "; " ++ n ++ js "=")) c)
    end.
Proof.
  intros Hn. unfold Routine.f.
  set (p := js "; " ++ n ++ js "=").
  change (indexOf c p 0) with (indexOf c p (Z.of_nat 0)).
  rewrite (indexOf_stringIndexOf c p 0) by lia. rewrite drop_0.
  destruct (stringIndexOf c p) as [i|] eqn:Ei; [|done].
  destruct (stringIndexOf_Some _ _ _ Ei) as (Hm & Hi & _).
  apply startsWith_inv in Hm as [post Hpost].
  assert (Hlen : length c = (i + length p + length post)%nat).
  { rewrite <- (take_drop i c) at 1. rewrite Hpost.
    rewrite !length_app, length_take. lia. }
  assert (Hdrop : drop (i + length p) c = post).
  { rewrite <- drop_drop, Hpost. by rewrite drop_app_length. }
  assert (Hp : p = semicolon :: (32%N :: n ++ [equals_sign])) by done.
  assert (Hlp : length p = S (S (length (n ++ [equals_sign])))).
  { by rewrite Hp. }
  replace (Z.of_nat (0 + i) <? 0) with false by (symmetry; apply Z.ltb_ge; lia).
  replace (Z.of_nat (0 + i) + 1) with (Z.of_nat (S i)) by lia.
  rewrite indexOf_stringIndexOf by lia.
  replace (drop (S i) c) with ((32%N :: n ++ [equals_sign]) ++ post).
  2:{ replace (S i) with (i + 1)%nat by lia.
      rewrite <- drop_drop, Hpost, Hp. done. }
  rewrite js_semicolon, stringIndexOf_semicolon_app.
  2:{ rewrite not_elem_of_cons, not_elem_of_app, not_elem_of_cons.
      split_and!; [done|done|done|apply not_elem_of_nil]. }
  pose proof (stringIndexOf_semicolon post) as Hs.
  rewrite Hdrop.
  destruct (stringIndexOf post [semicolon]) as [k|]; simpl fmap; cbv iota.
  - destruct Hs as [-> Hk].
    match goal with
    | |- context [?x <? 0] => destruct (Z.ltb_spec x 0); [lia|]
    end.
    replace (Z.of_nat (0 + i) + Z.of_nat (length p))
      with (Z.of_nat (i + length p)) by lia.
    rewrite substring_take_drop by lia.
    rewrite Hdrop. f_equal. lia.
  - destruct Hs as [-> _]. change (-1 <? 0) with true. cbv iota.
    replace (Z.of_nat (0 + i) + Z.of_nat (length p))
      with (Z.of_nat (i + length p)) by lia.
    rewrite substring_take_drop by lia.
    rewrite Hdrop. apply take_ge. lia.
Qed.

Lemma stringIndexOf_None_intro (s p : jsstring) :
  (forall pre post, s <> pre ++ p ++ post) -> stringIndexOf s p = None.
Proof.
  intros H. destruct (stringIndexOf s p) as [k|] eqn:E; [|done].
  destruct (stringIndexOf_Some _ _ _ E) as (Hm & _ & _).
  apply startsWith_inv in Hm as [t Ht].
  destruct (H (take k s) t). by rewrite <- Ht, take_drop.
Qed.

Lemma f_absent (c n d : jsstring) :
  stringIndexOf c (js "; " ++ n ++ js "=") = None -> Routine.f c n d = d.
Proof.
  intros H. unfold Routine.f.
  change (indexOf c (js "; " ++ n ++ js "=") 0)
    with (indexOf c (js "; " ++ n ++ js "=") (Z.of_nat 0)).
  rewrite indexOf_stringIndexOf by lia. rewrite drop_0, H. done.
Qed.


(** *** The lookup on the pairs of a cookie store *)

Lemma before_semicolon_app (a t : jsstring) :
  semicolon ∉ a ->
  t = [] \/ (exists t', t = semicolon :: t') ->
  before_semicolon (a ++ t) = a.
Proof.
  intros Ha Ht. induction a as [|c a IH]; simpl.
  - by destruct Ht as [->|[t' ->]].
  - apply not_elem_of_cons in Ha as [Hc Ha].
    assert ((c =? semicolon)%N = false) as -> by (apply N.eqb_neq; congruence).
    by rewrite IH.
Qed.

(** A name followed by [=] is a prefix of another entry only if the names
    are equal. *)
Lemma startsWith_name (n m t : jsstring) :
  equals_sign ∉ n -> equals_sign ∉ m -> n <> m ->
  startsWith (n ++ [equals_sign]) (m ++ equals_sign :: t) = false.
Proof.
  revert m; induction n as [|a n IH]; intros [|b m] Hn Hm Hne; try done.
  - apply not_elem_of_cons in Hm as [Hb _].
    apply startsWith_head_neq. congruence.
  - apply not_elem_of_cons in Hn as [Ha _].
    apply startsWith_head_neq. congruence.
  - apply not_elem_of_cons in Hn as [_ Hn].
    apply not_elem_of_cons in Hm as [_ Hm].
    cbn [app startsWith]. destruct (a =? b)%N eqn:E; [|done].
    apply N.eqb_eq in E as ->. simpl. apply IH; [done|done|congruence].
Qed.

Lemma entry_text_cons (e : jsstring * jsstring) :
  entry_text e = semicolon :: 32%N :: e.1 ++ equals_sign :: e.2.
Proof. done. Qed.

Lemma pattern_cons (n : jsstring) :
  js "; " ++ n ++ js "=" = semicolon :: 32%N :: n ++ [equals_sign].
Proof. done. Qed.

(** The normalized buffer of a non-empty store is the concatenation of its
    entries, each preceded by the delimiter. *)
Lemma normalized_cons (e : jsstring * jsstring)
    (rest : list (jsstring * jsstring)) :
  js "; " ++ join (js "; ") (cookie_entry <$> (e :: rest))
  = entry_text e
      ++ match rest with
         | [] => []
         | _ :: _ => js "; " ++ join (js "; ") (cookie_entry <$> rest)
         end.
Proof.
  destruct rest as [|e' rest]; cbn.
  - by rewrite app_nil_r.
  - unfold entry_text. by rewrite <- !app_assoc.
Qed.

Lemma entry_match (e : jsstring * jsstring) (t : jsstring) :
  semicolon ∉ e.2 ->
  t = [] \/ (exists t', t = semicolon :: t') ->
  stringIndexOf (entry_text e ++ t) (js "; " ++ e.1 ++ js "=") = Some 0%nat
  /\ before_semicolon
       (drop (length (js "; " ++ e.1 ++ js "=")) (entry_text e ++ t))
     = e.2.
Proof.
  intros Hv Ht.
  assert (entry_text e ++ t = (js "; " ++ e.1 ++ js "=") ++ (e.2 ++ t)) as ->.
  { unfold entry_text, cookie_entry. by rewrite <- !app_assoc. }
  split.
  - apply stringIndexOf_here, startsWith_app.
  - rewrite drop_app_length. by apply before_semicolon_app.
Qed.

Lemma entry_skip (e : jsstring * jsstring) (n t : jsstring) :
  semicolon ∉ e.1 -> equals_sign ∉ e.1 -> semicolon ∉ e.2 ->
  equals_sign ∉ n -> e.1 <> n ->
  stringIndexOf (entry_text e ++ t) (js "; " ++ n ++ js "=")
  = (fun k => (length (entry_text e) + k)%nat)
      <$> stringIndexOf t (js "; " ++ n ++ js "=").
Proof.
  intros H1 H1' H2 Hn Hne. apply stringIndexOf_skip.
  rewrite entry_text_cons, pattern_cons.
  intros [|k] Hk.
  - cbn [drop app startsWith]. rewrite !N.eqb_refl. simpl andb.
    rewrite <- app_assoc.
    apply startsWith_name; [done|done|congruence].
  - set (body := 32%N :: e.1 ++ equals_sign :: e.2).
    change ((semicolon :: body) ++ t) with (semicolon :: (body ++ t)).
    cbn [drop]. rewrite drop_app_le by (simpl in Hk |- *; lia).
    destruct (drop k body) as [|c u] eqn:E.
    { apply (f_equal length) in E. rewrite length_drop in E.
      simpl in E, Hk. lia. }
    change ((c :: u) ++ t) with (c :: (u ++ t)).
    apply startsWith_head_neq. intros <-.
    assert (Hin : semicolon ∈ body).
    { rewrite <- (take_drop k body), E.
      apply elem_of_app. right. apply list_elem_of_here. }
    unfold body in Hin.
    rewrite elem_of_cons, elem_of_app, elem_of_cons in Hin.
    destruct Hin as [?|[?|[?|?]]]; done.
Qed.

Lemma stringIndexOf_nil (p : jsstring) : p <> [] -> stringIndexOf [] p = None.
Proof. intros H. simpl. by rewrite startsWith_nil_r. Qed.

Lemma jar_first_match (jar : list (jsstring * jsstring)) (n : jsstring) :
  jar <> [] -> jar_wf jar -> equals_sign ∉ n ->
  let c := js "; " ++ join (js "; ") (cookie_entry <$> jar) in
  let p := js "; " ++ n ++ js "=" in
  match stringIndexOf c p with
  | None => jar_lookup n jar = None
  | Some i => jar_lookup n jar = Some (before_semicolon (drop (i + length p) c))
  end.
Proof.
  intros Hne Hwf Hn. cbv zeta.
  induction jar as [|e rest IH]; [done|]. clear Hne.
  apply Forall_cons in Hwf as [(He1 & He1' & He2) Hwf].
  rewrite normalized_cons.
  set (t := match rest with
            | [] => []
            | _ :: _ => js "; " ++ join (js "; ") (cookie_entry <$> rest)
            end) in *.
  assert (Ht : t = [] \/ (exists t', t = semicolon :: t')).
  { unfold t. destruct rest; [by left|right]. by eexists. }
  cbn [jar_lookup]. destruct (decide (e.1 = n)) as [<-|Hneq].
  - destruct (entry_match e t He2 Ht) as [-> Hv].
    by rewrite Nat.add_0_l, Hv.
  - rewrite entry_skip by done.
    destruct rest as [|e' rest'].
    + unfold t. by rewrite stringIndexOf_nil.
    + specialize (IH ltac:(done) Hwf). fold t in IH.
      destruct (stringIndexOf t (js "; " ++ n ++ js "=")) as [i|];
        simpl fmap; [|done].
      rewrite IH. do 2 f_equal.
      replace (S (S (length (cookie_entry e) + i))
               + length (js "; " ++ n ++ js "="))%nat
        with (length (entry_text e)
              + (i + length (js "; " ++ n ++ js "=")))%nat
        by (unfold entry_text; rewrite (length_app (js "; ")); simpl; lia).
      by rewrite drop_app_add.
Qed.

(** On the pairs of a store, the lookup returns the value of the pair named
    [n], and the default when there is none. *)
Lemma f_jar (jar : list (jsstring * jsstring)) (n d : jsstring) :
  jar_wf jar -> semicolon ∉ n -> equals_sign ∉ n ->
  Routine.f (js "; " ++ join (js "; ") (cookie_entry <$> jar)) n d
  = default d (jar_lookup n jar).
Proof.
  intros Hwf Hn Hn'. rewrite f_first_match by done.
  destruct jar as [|e rest].
  - simpl join. rewrite app_nil_r, pattern_cons, js_delimiter.
    cbn [stringIndexOf startsWith]. rewrite !N.eqb_refl.
    rewrite (startsWith_nil_r (n ++ [equals_sign])) by (by destruct n).
    done.
  - pose proof (jar_first_match (e :: rest) n ltac:(done) Hwf Hn') as H.
    cbv zeta in H.
    destruct (stringIndexOf _ _); by rewrite H.
Qed.

Lemma jar_lookup_None (jar : list (jsstring * jsstring)) (n : jsstring) :
  (forall e, e ∈ jar -> e.1 <> n) -> jar_lookup n jar = None.
Proof.
  induction jar as [|e rest IH]; intros H; [done|].
  cbn [jar_lookup]. destruct (decide (e.1 = n)) as [E|_].
  - destruct (H e); [apply list_elem_of_here|done].
  - apply IH. intros e' He'. apply H. by apply list_elem_of_further.
Qed.

Lemma stringIndexOf_least (s p : jsstring) (k : nat) :
  stringIndexOf s p = Some k ->
  forall pre post, s = pre ++ p ++ post -> (k <= length pre)%nat.
Proof.
  intros E pre post ->.
  destruct (stringIndexOf_Some _ _ _ E) as (_ & _ & Hleast).
  destruct (decide (length pre < k)%nat) as [Hlt|]; [|lia].
  specialize (Hleast _ Hlt).
  by rewrite drop_app_length, startsWith_app in Hleast.
Qed.

Lemma stringIndexOf_first (s p pre post : jsstring) :
  s = pre ++ p ++ post ->
  (forall pre' post', s = pre' ++ p ++ post' ->
     (length pre <= length pre')%nat) ->
  stringIndexOf s p = Some (length pre).
Proof.
  intros Hs Hfirst.
  destruct (stringIndexOf s p) as [k|] eqn:E.
  - f_equal. apply Nat.le_antisymm.
    + by eapply stringIndexOf_least.
    + destruct (stringIndexOf_Some _ _ _ E) as (Hm & Hk & _).
      apply startsWith_inv in Hm as [t Ht].
      specialize (Hfirst (take k s) t).
      rewrite length_take, <- Ht, take_drop in Hfirst.
      specialize (Hfirst eq_refl). lia.
  - pose proof (stringIndexOf_None _ _ E (length pre)) as H.
    by rewrite Hs, drop_app_length, startsWith_app in H.
Qed.


(** Closed decidable side conditions. *)
Ltac by_decide :=
  unfold jar_wf, cookie_name_ok, plain, fields_free_of; compute_done.

(** ** C1: boundary matching *)

(** C1 (as amended: the name holds no [;]).  For every buffer and every
    name [n] without [;], the lookup returns the default when ["; " + n + "="]
    does not occur in the normalized buffer, and otherwise the text between
    the end of its first occurrence and the next [;] or the end of the
    buffer, verbatim.  On the pairs of a cookie store this is the value of
    the pair named exactly [n]; a pair whose name only contains [n] is never
    matched. *)
Theorem lookup_boundary_matching (buf n d : jsstring) :
  semicolon ∉ n ->
  let c := js "; " ++ buf in
  let p := js "; " ++ n ++ js "=" in
  Routine.f c n d
  = match stringIndexOf c p with
    | None => d
    | Some i => before_semicolon (drop (i + length p) c)
    end
  /\ ((forall pre post, c <> pre ++ p ++ post) -> Routine.f c n d = d)
  /\ (forall pre v rest,
        c = pre ++ p ++ v ++ rest ->
        (forall pre' post', c = pre' ++ p ++ post' ->
           (length pre <= length pre')%nat) ->
        semicolon ∉ v ->
        rest = [] \/ (exists rest', rest = semicolon :: rest') ->
        Routine.f c n d = v)
  /\ (forall jar,
        jar_wf jar -> equals_sign ∉ n ->
        buf = join (js "; ") (cookie_entry <$> jar) ->
        Routine.f c n d = default d (jar_lookup n jar)
        /\ ((forall e, e ∈ jar -> e.1 <> n) -> Routine.f c n d = d)).
Proof.
  intros Hn c p. split_and!.
  - by apply f_first_match.
  - intros H. by apply f_absent, stringIndexOf_None_intro.
  - intros pre v rest Hc Hfirst Hv Hrest.
    rewrite f_first_match by done. fold p.
    rewrite (stringIndexOf_first c p pre (v ++ rest) Hc Hfirst).
    rewrite Hc, drop_app_add, drop_app_length.
    by apply before_semicolon_app.
  - intros jar Hwf Hn' ->. unfold c. rewrite f_jar by done. split; [done|].
    intros H. by rewrite jar_lookup_None.
Qed.

Lemma lookup_boundary_matching_witness :
  Routine.f (js "; " ++ js "x-sw=999; sw=300; b=2") (js "sw") (js "280")
  = js "300"
  /\ Routine.f (js "; " ++ js "x-sw=999; sw=300; b=2") (js "sw") (js "280")
     = default (js "280")
         (jar_lookup (js "sw")
            [(js "x-sw", js "999"); (js "sw", js "300"); (js "b", js "2")])
  /\ Routine.f (js "; " ++ js "my-sw=999; other=1") (js "sw") (js "280")
     = js "280".
Proof.
  assert (Hn : semicolon ∉ js "sw") by by_decide.
  split_and!.
  - apply (proj1 (proj2 (proj2
             (lookup_boundary_matching (js "x-sw=999; sw=300; b=2")
                (js "sw") (js "280") Hn)))
             (js "; x-sw=999") (js "300") (js "; b=2")).
    + reflexivity.
    + apply stringIndexOf_least. reflexivity.
    + by_decide.
    + right. by eexists.
  - apply (proj2 (proj2 (proj2
             (lookup_boundary_matching (js "x-sw=999; sw=300; b=2")
                (js "sw") (js "280") Hn)))
             [(js "x-sw", js "999"); (js "sw", js "300"); (js "b", js "2")]).
    + by_decide.
    + by_decide.
    + reflexivity.
  - apply (proj2 (proj2 (proj2
             (lookup_boundary_matching (js "my-sw=999; other=1")
                (js "sw") (js "280") Hn)))
             [(js "my-sw", js "999"); (js "other", js "1")]).
    + by_decide.
    + by_decide.
    + reflexivity.
    + intros e He. revert e He. apply Forall_forall. by_decide.
Defined.

(** A name that holds [;]: the first match of ["; a;b="] in ["; a;b=1"] is
    at 0 and the text from its end to the next [;] is ["1"], but the search
    for [;] starts at [i+1], inside the name, and [substring] swaps its
    bounds: the lookup returns [";b="]. *)
Lemma lookup_name_with_semicolon :
  let c := js "; " ++ js "a;b=1" in
  let p := js "; " ++ js "a;b" ++ js "=" in
  stringIndexOf c p = Some 0%nat
  /\ before_semicolon (drop (0 + length p) c) = js "1"
  /\ Routine.f c (js "a;b") (js "280") = js ";b="
  /\ Routine.f c (js "a;b") (js "280")
     <> before_semicolon (drop (0 + length p) c).
Proof. split_and!; [reflexivity|reflexivity|reflexivity|by vm_compute]. Qed.

(** The cases the test suite and the specification name. *)
Example lookup_examples :
  Routine.f (js "; " ++ js "x-sw=999; sw=300") (js "sw") (js "280") = js "300"
  /\ Routine.f (js "; " ++ js "xsw=999") (js "sw") (js "280") = js "280"
  /\ Routine.f (js "; " ++ js "my-sw=999; other=1") (js "sw") (js "280")
     = js "280"
  /\ Routine.f (js "; " ++ js "sw=400; other=1") (js "sw") (js "280")
     = js "400"
  /\ Routine.f (js "; " ++ js "a=1; sw=400; b=2") (js "sw") (js "280")
     = js "400"
  /\ Routine.f (js "; " ++ js "sw=hello%20world") (js "sw") (js "280")
     = js "hello%20world".
Proof. repeat split; reflexivity. Qed.

(** ** C8: the lookup is total and falls back to the default *)



(** ** The text of the routine *)

Lemma join_empty_separator (parts : list jsstring) :
  join [] parts = concat parts.
Proof.
  induction parts as [|x [|y rest] IH]; [done| |].
  - simpl. by rewrite app_nil_r.
  - change (join [] (x :: y :: rest)) with (x ++ [] ++ join [] (y :: rest)).
    rewrite IH. done.
Qed.

(** The shared part is emitted once, before the hook-set calls. *)
Lemma generatePrehydrateScript_structure
    (configs : list PrehydrateValueConfig) :
  generatePrehydrateScript configs
  = concat routine_head ++ setters configs ++ js "}())".
Proof.
  unfold generatePrehydrateScript.
  rewrite join_empty_separator, concat_app.
  cbn [concat]. by rewrite app_nil_r.
Qed.

Lemma setters_cons (c : PrehydrateValueConfig)
    (rest : list PrehydrateValueConfig) :
  setters (c :: rest)
  = setter c ++ match rest with
                | [] => []
                | _ :: _ => js ";" ++ setters rest
                end.
Proof. destruct rest; cbn; [by rewrite app_nil_r|done]. Qed.






(** ** C6: one shared read, one hook-set call per descriptor *)




(** ** C10: the routine for no descriptors *)

(** C10.  For the empty descriptor list the text is the self-invoking
    function with the one read of [document.cookie], the lookup [f] and no
    hook-set call; its brackets and string literals are balanced, and
    running it leaves the document as it was. *)
Theorem script_for_no_descriptors :
  generatePrehydrateScript []
  = js "(function(){var c=" ++ quoted (js "; ")
      ++ js "+document.cookie,s=document.documentElement.style,"
      ++ js "f=function(n,d){var p=" ++ quoted (js "; ") ++ js "+n+"
      ++ quoted (js "=") ++ js ",i=c.indexOf(p);if(i<0)return d;"
      ++ js "var j=c.indexOf(" ++ quoted (js ";") ++ js ",i+1);"
      ++ js "return c.substring(i+p.length,j<0?c.length:j)};"
      ++ js "}())"
  /\ startsWith (js "(function(){") (generatePrehydrateScript []) = true
  /\ startsWith (rev (js "}())")) (rev (generatePrehydrateScript [])) = true
  /\ balanced (generatePrehydrateScript []) = true
  /\ occurrences (js "document.cookie") (generatePrehydrateScript [])
     = 1%nat
  /\ occurrences (js "f=function(n,d){") (generatePrehydrateScript [])
     = 1%nat
  /\ occurrences (js "setProperty") (generatePrehydrateScript []) = 0%nat
  /\ (forall d : Document, Routine.run [] d = d).
Proof.
  split_and!; reflexivity.
Qed.

(** ** The value cell *)

Lemma set_normal (config : PrehydrateValueConfig) (x : jsstring)
    (st st' : App) :
  set config x st = (Normal tt, st') ->
  exists d enc,
    document st = Some d /\ encodeURIComponent x = Some enc
    /\ st' = {| document :=
                  Some (document_cookie_assign (cookie_assignment config enc)
                          (setProperty (cssVar config) x d));
                currentValue := x;
                mounted := mounted st;
                effectQueued := effectQueued st |}.
Proof.
  unfold set, bind, setValue, on_document, encodeURIComponent_call, ret, throw.
  cbn. destruct (document st) as [d|]; [|done].
  destruct (encodeURIComponent x) as [enc|]; cbn; [|done].
  intros [= <-]. by exists d, enc.
Qed.


(** Whether or not it throws, [set] has updated the state cell first and
    leaves the hook state of the readers alone. *)
Lemma set_state (config : PrehydrateValueConfig) (x : jsstring) (st : App) :
  currentValue (set config x st).2 = x
  /\ mounted (set config x st).2 = mounted st
  /\ effectQueued (set config x st).2 = effectQueued st.
Proof.
  unfold set, bind, setValue, on_document, encodeURIComponent_call, ret, throw.
  cbn. destruct (document st) as [d|]; [|done].
  destruct (encodeURIComponent x) as [enc|]; done.
Qed.

(** ** C9: reading outside a [Provider] *)

(** C9.  With no enclosing [Provider] the context is [null] and both read
    operations throw an [Error] at once, before any hook state is touched;
    its message ends with the descriptor's cookie name in quotes.  Under a
    [Provider] neither of them throws. *)
Theorem read_outside_provider_throws (config : PrehydrateValueConfig) :
  let message :=
    js "useValue/useHydratedValue must be used within a <Provider> for "
      ++ quoted (cookie config) in
  useValue config None = Throw (Error message)
  /\ (forall is_mounted,
        useHydratedValue config None is_mounted = Throw (Error message))
  /\ (forall st, exists r, useValue config (Provider config st) = Normal r)
  /\ (forall st is_mounted,
        exists r,
          useHydratedValue config (Provider config st) is_mounted = Normal r).
Proof.
  split_and!; [done|done| |]; intros; by eexists.
Qed.

(** ** C4: the presentation channel *)

(** C4.  Under a [Provider], [useValue] returns the state cell, a string,
    with the setter.  The cell starts as [defaultValue] where there is no
    [document]; where there is one it starts as the hook's value when that
    is set and not empty, and as [defaultValue] otherwise. *)
Theorem presentation_value_is_string (config : PrehydrateValueConfig) :
  (forall st,
     readForPresentation config st = Normal (currentValue st, set config))
  /\ (forall interactive,
        currentValue (first_render config None interactive)
        = defaultValue config)
  /\ (forall d interactive v,
        style d !! cssVar config = Some v -> v <> [] ->
        currentValue (first_render config (Some d) interactive) = v)
  /\ (forall d interactive,
        style d !! cssVar config = None
        \/ style d !! cssVar config = Some [] ->
        currentValue (first_render config (Some d) interactive)
        = defaultValue config).
Proof.
  split_and!; [done|done| |].
  - intros d i v Hv Hne. cbn. unfold getPropertyValue. rewrite Hv. cbn.
    by destruct v.
  - intros d i H. cbn. unfold getPropertyValue. by destruct H as [->| ->].
Qed.

Lemma presentation_value_is_string_witness :
  currentValue
    (first_render sw_config
       (Some (setProperty (js "--sw") (js "42") empty_document)) true)
  = js "42"
  /\ currentValue (first_render sw_config (Some empty_document) true)
     = js "280"
  /\ currentValue
       (first_render sw_config
          (Some (setProperty (js "--sw") [] empty_document)) true)
     = js "280".
Proof.
  destruct (presentation_value_is_string sw_config)
    as (_ & _ & Hset & Hunset).
  split_and!.
  - apply Hset; [reflexivity|by vm_compute].
  - apply Hunset. left. reflexivity.
  - apply Hunset. right. reflexivity.
Defined.

(** ** C3: the text channel *)

Section Mount.
Variable config : PrehydrateValueConfig.

Lemma run_events_app (st : App) (es1 es2 : list Event) :
  run_events config st (es1 ++ es2)
  = run_events config (run_events config st es1) es2.
Proof. apply fold_left_app. Qed.

Lemma readForText_unfold (st : App) :
  readForText config st
  = Normal (if mounted st then Some (currentValue st) else None, set config).
Proof. done. Qed.

(** A tree rendered without effects stays unmounted. *)
Lemma never_mounted (st : App) (es : list Event) :
  mounted st = false -> effectQueued st = false ->
  mounted (run_events config st es) = false.
Proof.
  revert st; induction es as [|e es IH]; intros st Hm Hq; [done|].
  apply IH; destruct e as [|x]; cbn [step].
  - unfold run_effects. by rewrite Hq.
  - by destruct (set_state config x st) as (_ & -> & _).
  - unfold run_effects. by rewrite Hq.
  - by destruct (set_state config x st) as (_ & _ & ->).
Qed.

(** Calls of the setter do not mount. *)
Lemma sets_keep_flags (st : App) (xs : list jsstring) :
  mounted (run_events config st (CallSet <$> xs)) = mounted st
  /\ effectQueued (run_events config st (CallSet <$> xs)) = effectQueued st.
Proof.
  revert st; induction xs as [|x xs IH]; intros st; [done|].
  unfold run_events in *. cbn [fmap list_fmap fold_left step].
  destruct (IH (set config x st).2) as [-> ->].
  by destruct (set_state config x st) as (_ & -> & ->).
Qed.

(** Once mounted, always mounted. *)
Lemma mounted_stable (st : App) (es : list Event) :
  mounted st = true -> mounted (run_events config st es) = true.
Proof.
  revert st; induction es as [|e es IH]; intros st Hm; [done|].
  apply IH. destruct e as [|x]; cbn [step].
  - unfold run_effects. by destruct (effectQueued st).
  - by destruct (set_state config x st) as (_ & -> & _).
Qed.

(** Between an interactive first render and the mount transition the
    effect stays queued; afterwards the tree is mounted. *)
Lemma queued_or_mounted (st : App) (es : list Event) :
  effectQueued st = true \/ mounted st = true ->
  effectQueued (run_events config st es) = true
  \/ mounted (run_events config st es) = true.
Proof.
  revert st; induction es as [|e es IH]; intros st H; [done|].
  apply IH. destruct e as [|x]; cbn [step].
  - right. unfold run_effects. destruct (effectQueued st); [done|].
    by destruct H.
  - by destruct (set_state config x st) as (_ & -> & ->).
Qed.

Lemma run_effects_mounts (st : App) :
  effectQueued st = true \/ mounted st = true ->
  mounted (run_effects st) = true
  /\ currentValue (run_effects st) = currentValue st.
Proof.
  intros H. unfold run_effects. destruct (effectQueued st); [done|].
  by destruct H.
Qed.

(** C3.  After a non-interactive first render [useHydratedValue] returns
    [null] whatever happens next; after an interactive one it returns
    [null] as long as only the setter is called; once the mount transition
    has run it returns the state cell, and a value set before the
    transition is the one read after it. *)
Theorem text_value_gated_by_mount (doc : option Document) :
  (forall es,
     readForText config
       (run_events config (first_render config doc false) es)
     = Normal (None, set config))
  /\ (forall xs,
        readForText config
          (run_events config (first_render config doc true) (CallSet <$> xs))
        = Normal (None, set config))
  /\ (forall es1 es2,
        let st := run_events config (first_render config doc true)
                    (es1 ++ RunEffects :: es2) in
        readForText config st = Normal (Some (currentValue st), set config))
  /\ (forall xs x,
        readForText config
          (run_events config (first_render config doc true)
             ((CallSet <$> xs) ++ [CallSet x; RunEffects]))
        = Normal (Some x, set config)).
Proof.
  split_and!.
  - intros es. rewrite readForText_unfold.
    by rewrite never_mounted.
  - intros xs. rewrite readForText_unfold.
    by destruct (sets_keep_flags (first_render config doc true) xs) as [-> _].
  - intros es1 es2 st. rewrite readForText_unfold.
    assert (mounted st = true) as ->; [|done].
    unfold st. rewrite run_events_app.
    change (RunEffects :: es2) with ([RunEffects] ++ es2).
    rewrite run_events_app. apply mounted_stable.
    unfold run_events at 1. cbn [fold_left step].
    apply run_effects_mounts, queued_or_mounted. by left.
  - intros xs x. rewrite readForText_unfold, run_events_app.
    change (run_events config ?s [CallSet x; RunEffects])
      with (run_effects (set config x s).2).
    set (st := run_events config (first_render config doc true)
                 (CallSet <$> xs)).
    destruct (sets_keep_flags (first_render config doc true) xs) as [_ Hq].
    fold st in Hq. cbn [first_render effectQueued] in Hq.
    destruct (set_state config x st) as (Hv & _ & Hq').
    destruct (run_effects_mounts (set config x st).2) as [-> ->].
    + left. by rewrite Hq'.
    + by rewrite Hv.
Qed.

End Mount.

(** ** Percent-encoding and the cookie store *)

Example encodeURIComponent_examples :
  encodeURIComponent (js "hello world") = Some (js "hello%20world")
  /\ encodeURIComponent (js "a;b=c") = Some (js "a%3Bb%3Dc")
  /\ encodeURIComponent [233%N] = Some (js "%C3%A9")
  /\ encodeURIComponent [8364%N] = Some (js "%E2%82%AC")
  /\ encodeURIComponent [55357%N; 56832%N] = Some (js "%F0%9F%98%80")
  /\ encodeURIComponent [55357%N] = None
  /\ encodeURIComponent (js "300") = Some (js "300").
Proof. repeat split; reflexivity. Qed.


Lemma unreserved_plain (c : N) : unreserved c = true -> plain c.
Proof.
  intros H. unfold plain.
  split_and!; [intros ->; by vm_compute in H ..|].
  unfold is_wsp. apply orb_false_intro; apply N.eqb_neq; intros ->;
    by vm_compute in H.
Qed.

Lemma hex_digit_plain (n : N) : plain (hex_digit n).
Proof.
  unfold plain, hex_digit, is_wsp, semicolon, equals_sign.
  destruct (N.ltb_spec n 10).
  - split_and!; [lia|lia|]. apply orb_false_intro; apply N.eqb_neq; lia.
  - split_and!; [lia|lia|]. apply orb_false_intro; apply N.eqb_neq; lia.
Qed.

Lemma escape_plain (cp : N) : Forall plain (escape cp).
Proof.
  assert (Hp : forall b, Forall plain (percent b)).
  { intros b. unfold percent. repeat constructor; try apply hex_digit_plain;
      by vm_compute. }
  unfold escape. induction (utf8 cp) as [|b bytes IH].
  - constructor.
  - change (mjoin (percent <$> b :: bytes))
      with (percent b ++ mjoin (percent <$> bytes)).
    apply Forall_app. by split.
Qed.

(** The encoded text holds no [;], [=], space or tab. *)
Lemma encodeURIComponent_plain (x enc : jsstring) :
  encodeURIComponent x = Some enc -> Forall plain enc.
Proof.
  revert enc. induction x as [x IH] using (induction_ltof1 _ length).
  unfold ltof in IH. intros enc. destruct x as [|c rest]; cbn.
  - by intros [= <-].
  - destruct (unreserved c) eqn:Hc.
    + destruct (encodeURIComponent rest) as [e|] eqn:E; [|done].
      intros [= <-]. constructor; [by apply unreserved_plain|].
      apply (IH rest); [cbn; lia|done].
    + destruct (is_lead c).
      * destruct rest as [|c2 rest']; [done|].
        destruct (is_trail c2); [|done].
        destruct (encodeURIComponent rest') as [e|] eqn:E; [|done].
        intros [= <-]. apply Forall_app. split; [apply escape_plain|].
        apply (IH rest'); [cbn; lia|done].
      * destruct (is_trail c); [done|].
        destruct (encodeURIComponent rest) as [e|] eqn:E; [|done].
        intros [= <-]. apply Forall_app. split; [apply escape_plain|].
        apply (IH rest); [cbn; lia|done].
Qed.

Lemma plain_no_semicolon (s : jsstring) : Forall plain s -> semicolon ∉ s.
Proof.
  intros H Hin. rewrite Forall_forall in H. by destruct (H _ Hin) as (? & _).
Qed.

Lemma plain_no_equals (s : jsstring) : Forall plain s -> equals_sign ∉ s.
Proof.
  intros H Hin. rewrite Forall_forall in H.
  by destruct (H _ Hin) as (_ & ? & _).
Qed.

Lemma trim_start_plain (s : jsstring) : Forall plain s -> trim_start s = s.
Proof. destruct 1 as [|c s (_ & _ & Hc) _]; [done|]. cbn. by rewrite Hc. Qed.

Lemma trim_plain (s : jsstring) : Forall plain s -> trim s = s.
Proof.
  intros H. unfold trim. rewrite (trim_start_plain s H).
  rewrite trim_start_plain; [apply rev_involutive|].
  by apply Forall_rev.
Qed.

Lemma stringIndexOf_equals (name rest : jsstring) :
  equals_sign ∉ name ->
  stringIndexOf (name ++ equals_sign :: rest) [equals_sign]
  = Some (length name).
Proof.
  induction name as [|c name IH]; intros H.
  - reflexivity.
  - apply not_elem_of_cons in H as [Hc H].
    change ((c :: name) ++ equals_sign :: rest)
      with (c :: (name ++ equals_sign :: rest)).
    cbn [stringIndexOf startsWith].
    assert ((equals_sign =? c)%N = false) as -> by (by apply N.eqb_neq).
    cbn. by rewrite IH.
Qed.

(** The pair stored by the assignment [set] makes. *)
Lemma cookie_pair_assignment (config : PrehydrateValueConfig)
    (enc : jsstring) :
  cookie_name_ok (cookie config) -> Forall plain enc ->
  cookie_pair (cookie_assignment config enc) = Some (cookie config, enc).
Proof.
  intros [Hne Hname] Henc. unfold cookie_pair, cookie_assignment.
  assert (Hb : before_semicolon
                 (cookie config ++ js "=" ++ enc
                    ++ js ";path=/;max-age=31536000;SameSite=Lax")
               = cookie config ++ equals_sign :: enc).
  { rewrite js_equals. rewrite !app_assoc.
    rewrite before_semicolon_app.
    - by rewrite <- app_assoc.
    - rewrite !not_elem_of_app, not_elem_of_cons. split_and!.
      + by apply plain_no_semicolon.
      + done.
      + apply not_elem_of_nil.
      + by apply plain_no_semicolon.
    - right. by eexists. }
  rewrite Hb, js_equals, stringIndexOf_equals by (by apply plain_no_equals).
  rewrite take_app_length.
  replace (S (length (cookie config))) with (length (cookie config) + 1)%nat
    by lia.
  rewrite drop_app_add. cbn [drop].
  rewrite !trim_plain by done.
  by destruct (cookie config).
Qed.

Lemma jar_lookup_store (name value : jsstring)
    (jar : list (jsstring * jsstring)) :
  jar_lookup name (jar_store name value jar) = Some value.
Proof.
  induction jar as [|e rest IH]; cbn.
  - by rewrite decide_True.
  - destruct (decide (e.1 = name)); cbn.
    + by rewrite decide_True.
    + by rewrite decide_False.
Qed.


(** After the routine has run, each hook holds what [f] looked up for its
    descriptor, provided no two descriptors share a hook. *)
Lemma run_style_lookup (c : jsstring) (configs : list PrehydrateValueConfig)
    (d : Document) (cfg : PrehydrateValueConfig) :
  cfg ∈ configs -> NoDup (cssVar <$> configs) ->
  style
    (fold_left
       (fun doc cfg =>
          setProperty (cssVar cfg)
            (Routine.f c (cookie cfg) (defaultValue cfg)) doc)
       configs d)
    !! cssVar cfg
  = Some (Routine.f c (cookie cfg) (defaultValue cfg)).
Proof.
  induction configs as [|a l IH] using rev_ind; intros Hin Hnd.
  - by apply elem_of_nil in Hin.
  - rewrite fold_left_app. cbn [fold_left setProperty style].
    rewrite fmap_app in Hnd. apply NoDup_app in Hnd as (Hl & Hdisj & _).
    apply elem_of_app in Hin as [Hin|Hin].
    + rewrite lookup_insert_ne; [by apply IH|].
      intros Heq. apply (Hdisj (cssVar cfg)).
      * by apply list_elem_of_fmap_2.
      * rewrite <- Heq. cbn. apply list_elem_of_here.
    + apply list_elem_of_singleton in Hin as ->. by rewrite lookup_insert_eq.
Qed.

(** *** Names and values inside the modelled domain *)





Lemma cookie_text_named (jar : list (jsstring * jsstring)) :
  jar_named jar -> cookie_text <$> jar = cookie_entry <$> jar.
Proof.
  induction 1 as [|e rest He _ IH]; [done|].
  cbn [fmap list_fmap] in *. rewrite IH. f_equal.
  unfold cookie_text. by destruct (e.1).
Qed.





(** ** C2: the triple write *)




(** ** C7: the string assigned to [document.cookie] *)

(** C7 (as amended: no space follows a [;]).  When [set x] returns it has
    assigned to [document.cookie], once, the cookie name, [=], the
    percent-encoding of [x] and [;path=/;max-age=31536000;SameSite=Lax]. *)
Theorem cookie_write_format (config : PrehydrateValueConfig) (x : jsstring)
    (st st' : App) :
  set config x st = (Normal tt, st') ->
  exists d d' enc,
    document st = Some d /\ document st' = Some d'
    /\ encodeURIComponent x = Some enc
    /\ cookieWrites d'
       = (cookie config ++ js "=" ++ enc
            ++ js ";path=/;max-age=31536000;SameSite=Lax")
           :: cookieWrites d.
Proof.
  intros H. apply set_normal in H as (d & enc & Hd & He & ->).
  by eexists d, _, enc.
Qed.

Lemma cookie_write_format_witness :
  let st := first_render sw_config (Some empty_document) true in
  exists d d' enc,
    document st = Some d
    /\ document (set sw_config (js "hello world") st).2 = Some d'
    /\ encodeURIComponent (js "hello world") = Some enc
    /\ cookieWrites d'
       = (js "sw" ++ js "=" ++ enc
            ++ js ";path=/;max-age=31536000;SameSite=Lax")
           :: cookieWrites d.
Proof.
  exact (cookie_write_format sw_config (js "hello world")
           (first_render sw_config (Some empty_document) true) _ eq_refl).
Defined.

(** The string written for ["999"] under ["sw"] is not the one the
    specification's format gives: that one has a space after each [;]. *)
Lemma cookie_write_differs_from_spec_format :
  let st' :=
    (set sw_config (js "999")
       (first_render sw_config (Some empty_document) true)).2 in
  (cookieWrites <$> document st')
  = Some [js "sw=999;path=/;max-age=31536000;SameSite=Lax"]
  /\ spec_write_format (js "sw") (js "999")
     = js "sw=999; path=/; max-age=31536000; SameSite=Lax"
  /\ (cookieWrites <$> document st')
     <> Some [spec_write_format (js "sw") (js "999")].
Proof. split_and!; [reflexivity|reflexivity|by vm_compute]. Qed.

(** ** C5: the round trip *)




(** * Further properties of the code *)

(** ** The text of the routine: size, order, brackets *)

(** The lengths of the template's literals. *)
Ltac js_lengths :=
  repeat match goal with
         | |- context [length (js ?s)] =>
             let n := eval vm_compute in (length (js s)) in
             change (length (js s)) with n
         end.

Lemma setter_length (c : PrehydrateValueConfig) :
  length (setter c) = setter_size c.
Proof.
  unfold setter, quoted, setter_size.
  repeat (rewrite length_app || cbn [length]). js_lengths. lia.
Qed.

Lemma setters_length (configs : list PrehydrateValueConfig) :
  length (setters configs)
  = (sum_list_with setter_size configs + (length configs - 1))%nat.
Proof.
  induction configs as [|c rest IH]; [done|].
  rewrite setters_cons, length_app, setter_length.
  destruct rest as [|c' rest'].
  - cbn. lia.
  - rewrite length_app, IH. js_lengths. cbn [sum_list_with length]. lia.
Qed.

(** X1.  The text has 212 code units around the hook-set calls; a call
    has 26 code units around its three fields, and calls are separated by
    one [;].  So one more descriptor makes the text longer by the lengths
    of its fields plus 26, plus 1 when it is not the first. *)
Theorem script_size (configs : list PrehydrateValueConfig) :
  length (generatePrehydrateScript configs)
  = (212 + sum_list_with setter_size configs + (length configs - 1))%nat
  /\ (forall c,
        length (generatePrehydrateScript (configs ++ [c]))
        = (length (generatePrehydrateScript configs) + setter_size c
           + match configs with [] => 0 | _ :: _ => 1 end)%nat).
Proof.
  assert (H : forall l,
             length (generatePrehydrateScript l)
             = (212 + sum_list_with setter_size l + (length l - 1))%nat).
  { intros l. rewrite generatePrehydrateScript_structure.
    rewrite !length_app, setters_length.
    replace (length (concat routine_head)) with 208%nat by reflexivity.
    js_lengths. lia. }
  split; [apply H|].
  intros c. rewrite !H, sum_list_with_app, length_app.
  destruct configs; cbn; lia.
Qed.

Lemma setters_app (l1 l2 : list PrehydrateValueConfig) :
  setters (l1 ++ l2)
  = setters l1
      ++ match l1, l2 with
         | _ :: _, _ :: _ => js ";"
         | _, _ => []
         end
      ++ setters l2.
Proof.
  induction l1 as [|c rest IH].
  - by destruct l2.
  - change ((c :: rest) ++ l2) with (c :: (rest ++ l2)).
    rewrite !setters_cons, IH.
    destruct rest as [|c' rest'], l2 as [|c2 l2']; cbn [app];
      change (setters []) with (@nil N);
      rewrite ?app_nil_r, <- ?app_assoc; done.
Qed.

(** X2.  Every descriptor gets its call, and the calls stand in the
    text in input order between the shared head and the closing, separated
    by [;]. *)
Theorem script_calls_in_input_order
    (before : list PrehydrateValueConfig) (c : PrehydrateValueConfig)
    (after : list PrehydrateValueConfig) :
  generatePrehydrateScript (before ++ c :: after)
  = concat routine_head
      ++ setters before
      ++ match before with [] => [] | _ :: _ => js ";" end
      ++ setter c
      ++ match after with [] => [] | _ :: _ => js ";" end
      ++ setters after
      ++ js "}())".
Proof.
  rewrite generatePrehydrateScript_structure, setters_app, setters_cons.
  destruct before, after; cbn [app]; rewrite <- ?app_assoc; done.
Qed.

Lemma lex_code (a t code : jsstring) (bodies : list jsstring) :
  dquote ∉ a -> lex false t = Some (code, bodies) ->
  lex false (a ++ t) = Some (a ++ code, bodies).
Proof.
  intros Ha Ht. induction a as [|c a IH]; [done|].
  apply not_elem_of_cons in Ha as [Hc Ha].
  cbn [app lex].
  assert ((c =? dquote)%N = false) as -> by (apply N.eqb_neq; congruence).
  by rewrite IH.
Qed.

Lemma lex_body (s t code : jsstring) (bodies : list jsstring) :
  Forall literal_unit s -> lex false t = Some (code, bodies) ->
  lex true (s ++ dquote :: t) = Some (dquote :: code, s :: bodies).
Proof.
  intros Hs Ht. induction Hs as [|c s [Hq Hc] _ IH].
  - cbn [app lex]. rewrite N.eqb_refl, Ht. done.
  - cbn [app lex].
    assert ((c =? dquote)%N = false) as -> by (by apply N.eqb_neq).
    rewrite bool_decide_eq_false_2 by done. by rewrite IH.
Qed.

Lemma lex_quoted (s t code : jsstring) (bodies : list jsstring) :
  Forall literal_unit s -> lex false t = Some (code, bodies) ->
  lex false (quoted s ++ t) = Some (quoted [] ++ code, s :: bodies).
Proof.
  intros Hs Ht. unfold quoted.
  change ((dquote :: s ++ [dquote]) ++ t)
    with (dquote :: ((s ++ [dquote]) ++ t)).
  rewrite <- app_assoc. cbn [app lex]. rewrite N.eqb_refl.
  by rewrite (lex_body s t code bodies).
Qed.

Lemma lex_setter (c : PrehydrateValueConfig) (t code : jsstring)
    (bodies : list jsstring) :
  literal_fields c -> lex false t = Some (code, bodies) ->
  lex false (setter c ++ t)
  = Some (setter blank_config ++ code,
          cssVar c :: cookie c :: defaultValue c :: bodies).
Proof.
  intros (H1 & H2 & H3) Ht. unfold setter. cbn [blank_config cssVar cookie defaultValue].
  repeat rewrite <- app_assoc.
  repeat first
    [ erewrite lex_quoted; [reflexivity|done|]
    | erewrite lex_code; [reflexivity|compute_done|] ].
  exact Ht.
Qed.

Lemma lex_setters (configs : list PrehydrateValueConfig) (t code : jsstring)
    (bodies : list jsstring) :
  Forall literal_fields configs -> lex false t = Some (code, bodies) ->
  lex false (setters configs ++ t)
  = Some (setters ((fun _ => blank_config) <$> configs) ++ code,
          fields_of configs ++ bodies).
Proof.
  intros Hfields Ht. induction Hfields as [|c rest Hc _ IH]; [done|].
  change ((fun _ => blank_config) <$> c :: rest)
    with (blank_config :: ((fun _ => blank_config) <$> rest)).
  rewrite !setters_cons, <- !app_assoc.
  change (fields_of (c :: rest))
    with ([cssVar c; cookie c; defaultValue c] ++ fields_of rest).
  rewrite <- app_assoc. cbn [app].
  apply lex_setter; [done|].
  destruct rest as [|c' rest']; [done|].
  change ((fun _ => blank_config) <$> c' :: rest')
    with (blank_config :: ((fun _ => blank_config) <$> rest')) in *.
  rewrite <- !app_assoc. apply lex_code; [compute_done|done].
Qed.

Lemma lex_head (t code : jsstring) (bodies : list jsstring) :
  lex false t = Some (code, bodies) ->
  lex false (concat routine_head ++ t)
  = Some (js "(function(){var c=" ++ quoted []
            ++ js "+document.cookie,s=document.documentElement.style,"
            ++ js "f=function(n,d){var p=" ++ quoted [] ++ js "+n+"
            ++ quoted [] ++ js ",i=c.indexOf(p);if(i<0)return d;"
            ++ js "var j=c.indexOf(" ++ quoted [] ++ js ",i+1);"
            ++ js "return c.substring(i+p.length,j<0?c.length:j)};"
            ++ code,
          js "; " :: js "; " :: js "=" :: js ";" :: bodies).
Proof.
  intros Ht.
  change (concat routine_head)
    with (js "(function(){var c=" ++ quoted (js "; ")
            ++ js "+document.cookie,s=document.documentElement.style,"
            ++ js "f=function(n,d){var p=" ++ quoted (js "; ") ++ js "+n+"
            ++ quoted (js "=") ++ js ",i=c.indexOf(p);if(i<0)return d;"
            ++ js "var j=c.indexOf(" ++ quoted (js ";") ++ js ",i+1);"
            ++ js "return c.substring(i+p.length,j<0?c.length:j)};").
  repeat rewrite <- app_assoc.
  repeat first
    [ erewrite lex_quoted;
      [reflexivity|unfold literal_unit; compute_done|]
    | erewrite lex_code; [reflexivity|compute_done|] ].
  exact Ht.
Qed.

(** X3.  When no field of a descriptor holds a double quote, a backslash
    or a line break, the string literals of the text are the four of the
    template followed by the fields of the descriptors, in order and
    verbatim; the text between the literals is the same as for blank
    descriptors, so it depends on the number of descriptors only. *)
Theorem script_literals_are_the_fields
    (configs : list PrehydrateValueConfig) :
  Forall literal_fields configs ->
  snd <$> lex false (generatePrehydrateScript configs)
  = Some ([js "; "; js "; "; js "="; js ";"] ++ fields_of configs)
  /\ fst <$> lex false (generatePrehydrateScript configs)
     = fst <$> lex false
                 (generatePrehydrateScript
                    ((fun _ => blank_config) <$> configs)).
Proof.
  intros Hfields.
  assert (Hend : lex false (js "}())") = Some (js "}())", [])) by reflexivity.
  assert (Hblank : Forall literal_fields
                     ((fun _ => blank_config) <$> configs)).
  { apply Forall_fmap, Forall_true. intros c. by repeat constructor. }
  rewrite !generatePrehydrateScript_structure.
  rewrite (lex_head _ _ _ (lex_setters _ _ _ _ Hfields Hend)).
  rewrite (lex_head _ _ _ (lex_setters _ _ _ _ Hblank Hend)).
  cbn [fmap option_fmap option_map fst snd]. rewrite app_nil_r.
  split; [done|].
  by rewrite <- list_fmap_compose.
Qed.

Lemma script_literals_are_the_fields_witness :
  snd <$> lex false (generatePrehydrateScript allPrehydrateValues)
  = Some [js "; "; js "; "; js "="; js ";";
          js "--left-sidebar-width"; js "left-sidebar-width"; js "280";
          js "--right-sidebar-width"; js "right-sidebar-width"; js "280"].
Proof.
  refine (proj1 (script_literals_are_the_fields allPrehydrateValues _)).
  unfold literal_fields, literal_unit. compute_done.
Defined.

(** ** The routine on a document *)

Lemma Document_eq (d1 d2 : Document) :
  style d1 = style d2 -> cookieJar d1 = cookieJar d2 ->
  cookieWrites d1 = cookieWrites d2 -> d1 = d2.
Proof. destruct d1, d2. cbn. by intros -> -> ->. Qed.

Section Hooks.
Variable c : jsstring.

Local Abbreviation set_hooks :=
  (fold_left
     (fun doc cfg =>
        setProperty (cssVar cfg)
          (Routine.f c (cookie cfg) (defaultValue cfg)) doc)).

Lemma set_hooks_cookies (configs : list PrehydrateValueConfig)
    (d : Document) :
  cookieJar (set_hooks configs d) = cookieJar d
  /\ cookieWrites (set_hooks configs d) = cookieWrites d.
Proof.
  revert d; induction configs as [|cfg rest IH]; intros d; [done|].
  cbn [fold_left]. by destruct (IH (setProperty (cssVar cfg)
    (Routine.f c (cookie cfg) (defaultValue cfg)) d)) as [-> ->].
Qed.

(** A hook holds what the last descriptor naming it looked up, and what
    it held before when no descriptor names it. *)
Lemma set_hooks_style (configs : list PrehydrateValueConfig) (d : Document)
    (v : jsstring) :
  style (set_hooks configs d) !! v
  = match last (filter (fun cfg => cssVar cfg = v) configs) with
    | Some cfg => Some (Routine.f c (cookie cfg) (defaultValue cfg))
    | None => style d !! v
    end.
Proof.
  induction configs as [|a l IH] using rev_ind; [done|].
  rewrite fold_left_app. cbn [fold_left setProperty style].
  rewrite filter_app, filter_cons, filter_nil.
  destruct (decide (cssVar a = v)) as [<-|Hne].
  - by rewrite last_snoc, lookup_insert_eq.
  - by rewrite app_nil_r, lookup_insert_ne.
Qed.

End Hooks.

Lemma filter_none_named (configs : list PrehydrateValueConfig)
    (v : jsstring) :
  v ∉ cssVar <$> configs -> filter (fun cfg => cssVar cfg = v) configs = [].
Proof.
  intros Hv. induction configs as [|a l IH]; [done|].
  cbn in Hv. apply not_elem_of_cons in Hv as [Hne Hv].
  rewrite filter_cons, decide_False by done. by apply IH.
Qed.

Lemma run_cookies (configs : list PrehydrateValueConfig) (d : Document) :
  cookieJar (Routine.run configs d) = cookieJar d
  /\ cookieWrites (Routine.run configs d) = cookieWrites d
  /\ document_cookie (Routine.run configs d) = document_cookie d.
Proof.
  unfold Routine.run, document_cookie.
  destruct (set_hooks_cookies (js "; " ++ document_cookie d) configs d)
    as [Hjar Hw].
  unfold document_cookie in *. by rewrite Hjar, Hw.
Qed.

(** X6.  For descriptors whose fields hold no quote, backslash or line
    break, running the routine a second time changes nothing. *)
Theorem routine_idempotent (configs : list PrehydrateValueConfig)
    (d : Document) :
  Forall literal_fields configs ->
  Routine.run configs (Routine.run configs d) = Routine.run configs d.
Proof.
  intros _.
  destruct (run_cookies configs d) as (Hjar & Hw & Hc).
  destruct (run_cookies configs (Routine.run configs d))
    as (Hjar' & Hw' & _).
  apply Document_eq; [|congruence..].
  apply map_eq. intros v. unfold Routine.run at 1. rewrite Hc.
  rewrite set_hooks_style. unfold Routine.run. rewrite set_hooks_style.
  by destruct (last _).
Qed.

Lemma routine_idempotent_witness :
  let d := {| style := ∅;
              cookieJar := [(js "left-sidebar-width", js "350")];
              cookieWrites := [] |} in
  Routine.run allPrehydrateValues (Routine.run allPrehydrateValues d)
  = Routine.run allPrehydrateValues d.
Proof.
  intros d. apply (routine_idempotent allPrehydrateValues d).
  unfold literal_fields, literal_unit. compute_done.
Defined.

(** X7.  For descriptors whose fields hold no quote, backslash or line
    break: when several of them name the same custom property and what
    the last of them looks up is a value the style declaration keeps as
    written, the hook ends up with that value. *)
Theorem routine_last_descriptor_wins
    (before : list PrehydrateValueConfig) (cfg : PrehydrateValueConfig)
    (after : list PrehydrateValueConfig) (d : Document) :
  Forall literal_fields (before ++ cfg :: after) ->
  custom_property_name (cssVar cfg) = true ->
  verbatim_value
    (Routine.f (js "; " ++ document_cookie d) (cookie cfg)
       (defaultValue cfg)) ->
  cssVar cfg ∉ cssVar <$> after ->
  style (Routine.run (before ++ cfg :: after) d) !! cssVar cfg
  = Some (Routine.f (js "; " ++ document_cookie d) (cookie cfg)
            (defaultValue cfg)).
Proof.
  intros _ _ _ Hafter. unfold Routine.run. rewrite set_hooks_style.
  rewrite filter_app, filter_cons, decide_True by done.
  rewrite (filter_none_named after) by done.
  by rewrite last_snoc.
Qed.

Lemma routine_last_descriptor_wins_witness :
  style
    (Routine.run
       [ {| cookie := js "a"; cssVar := js "--w"; defaultValue := js "1" |};
         {| cookie := js "b"; cssVar := js "--w"; defaultValue := js "2" |};
         {| cookie := js "c"; cssVar := js "--c"; defaultValue := js "3" |} ]
       {| style := ∅; cookieJar := [(js "a", js "10")];
          cookieWrites := [] |})
    !! js "--w"
  = Some (js "2").
Proof.
  apply (routine_last_descriptor_wins
           [ {| cookie := js "a"; cssVar := js "--w";
                defaultValue := js "1" |} ]
           {| cookie := js "b"; cssVar := js "--w"; defaultValue := js "2" |}
           [ {| cookie := js "c"; cssVar := js "--c";
                defaultValue := js "3" |} ]
           {| style := ∅; cookieJar := [(js "a", js "10")];
              cookieWrites := [] |}).
  - unfold literal_fields, literal_unit. compute_done.
  - reflexivity.
  - unfold verbatim_value. compute_done.
  - compute_done.
Defined.

(** X8.  What a [Provider] starts from on a document on which the routine
    has run, for descriptors whose fields hold no quote, backslash or line
    break, a custom property name, and a default and a stored value that
    the style declaration keeps as written: the value stored under the
    descriptor's cookie name when there is one and it is not empty,
    verbatim, and [defaultValue] otherwise.  With no cookie under that
    name this is what the server rendered, so the first client render
    agrees with the server's. *)
Theorem provider_seed_after_routine
    (configs : list PrehydrateValueConfig) (cfg : PrehydrateValueConfig)
    (d : Document) :
  jar_wf (cookieJar d) -> jar_named (cookieJar d) ->
  Forall literal_fields configs ->
  semicolon ∉ cookie cfg -> equals_sign ∉ cookie cfg ->
  custom_property_name (cssVar cfg) = true ->
  verbatim_value (defaultValue cfg) ->
  (forall value,
     jar_lookup (cookie cfg) (cookieJar d) = Some value ->
     verbatim_value value) ->
  cfg ∈ configs -> NoDup (cssVar <$> configs) ->
  Provider_init cfg (Some (Routine.run configs d))
  = match jar_lookup (cookie cfg) (cookieJar d) with
    | Some (u :: value) => u :: value
    | Some [] | None => defaultValue cfg
    end
  /\ (jar_lookup (cookie cfg) (cookieJar d) = None ->
      Provider_init cfg (Some (Routine.run configs d))
      = Provider_init cfg None).
Proof.
  intros Hwf Hnamed _ Hn Hn' _ _ _ Hin Hnd.
  assert (H : Provider_init cfg (Some (Routine.run configs d))
              = match jar_lookup (cookie cfg) (cookieJar d) with
                | Some (u :: value) => u :: value
                | Some [] | None => defaultValue cfg
                end).
  { unfold Provider_init, getPropertyValue, Routine.run.
    rewrite run_style_lookup by done. cbn [default].
    unfold document_cookie. rewrite cookie_text_named, f_jar by done.
    destruct (jar_lookup (cookie cfg) (cookieJar d)) as [[|u value]|];
      cbn; [done|done|]. by destruct (defaultValue cfg). }
  split; [done|]. intros Hnone. by rewrite H, Hnone.
Qed.

Lemma provider_seed_after_routine_witness :
  Provider_init rightSidebarWidth
    (Some (Routine.run allPrehydrateValues
             {| style := ∅;
                cookieJar := [(js "left-sidebar-width", js "350");
                              (js "right-sidebar-width", js "300")];
                cookieWrites := [] |}))
  = js "300"
  /\ Provider_init leftSidebarWidth
       (Some (Routine.run allPrehydrateValues
                {| style := ∅;
                   cookieJar := [(js "right-sidebar-width", js "300")];
                   cookieWrites := [] |}))
     = Provider_init leftSidebarWidth None.
Proof.
  assert (Hlit : Forall literal_fields allPrehydrateValues).
  { unfold literal_fields, literal_unit. compute_done. }
  split.
  - refine (proj1 (provider_seed_after_routine allPrehydrateValues
                     rightSidebarWidth
                     {| style := ∅;
                        cookieJar := [(js "left-sidebar-width", js "350");
                                      (js "right-sidebar-width", js "300")];
                        cookieWrites := [] |} _ _ Hlit _ _ _ _ _ _ _)).
    + by_decide.
    + unfold jar_named. compute_done.
    + compute_done.
    + compute_done.
    + reflexivity.
    + unfold verbatim_value. compute_done.
    + intros value [= <-]. unfold verbatim_value. compute_done.
    + unfold allPrehydrateValues.
      apply list_elem_of_further, list_elem_of_here.
    + compute_done.
  - refine (proj2 (provider_seed_after_routine allPrehydrateValues
                     leftSidebarWidth
                     {| style := ∅;
                        cookieJar := [(js "right-sidebar-width", js "300")];
                        cookieWrites := [] |} _ _ Hlit _ _ _ _ _ _ _) _).
    + by_decide.
    + unfold jar_named. compute_done.
    + compute_done.
    + compute_done.
    + reflexivity.
    + unfold verbatim_value. compute_done.
    + intros value [=].
    + unfold allPrehydrateValues. apply list_elem_of_here.
    + compute_done.
    + reflexivity.
Defined.

(** ** The write path: errors, isolation, overwriting *)

Lemma unreserved_not_surrogate (c : N) :
  unreserved c = true -> is_lead c = false /\ is_trail c = false.
Proof.
  intros H.
  assert (Hc : (c < 128)%N).
  { unfold unreserved, in_range in H.
    repeat (apply orb_prop in H as [H|H]);
      try (apply andb_prop in H as [_ H]; apply N.leb_le in H; lia).
    apply bool_decide_eq_true in H.
    repeat (apply elem_of_cons in H as [->|H]; [lia|]).
    by apply elem_of_nil in H. }
  unfold is_lead, is_trail, in_range.
  split; apply andb_false_intro1, N.leb_gt; lia.
Qed.

(** [encodeURIComponent] fails exactly on the strings with an unpaired
    surrogate. *)
Lemma encodeURIComponent_isWellFormed (x : jsstring) :
  encodeURIComponent x = None <-> isWellFormed x = false.
Proof.
  induction x as [x IH] using (induction_ltof1 _ length).
  unfold ltof in IH. destruct x as [|c rest]; [done|].
  cbn [encodeURIComponent isWellFormed].
  destruct (unreserved c) eqn:Hc.
  - destruct (unreserved_not_surrogate c Hc) as [-> ->].
    rewrite <- (IH rest) by (cbn; lia).
    by destruct (encodeURIComponent rest).
  - destruct (is_lead c).
    + destruct rest as [|c2 rest']; [done|].
      destruct (is_trail c2); [|done]. cbn [andb].
      rewrite <- (IH rest') by (cbn; lia).
      by destruct (encodeURIComponent rest').
    + destruct (is_trail c); [done|].
      rewrite <- (IH rest) by (cbn; lia).
      by destruct (encodeURIComponent rest).
Qed.

(** X9.  [set] can throw after it has begun to write.  Without a
    [document] it throws [ReferenceError] with the state cell already
    [x]; with a [document] and an [x] that holds an unpaired surrogate it
    throws [URIError] with the state cell already [x] and the cookie store
    untouched: nothing has been assigned to [document.cookie].  It returns
    exactly when there is a [document] and [x] is well formed. *)
Theorem set_partial_on_throw (config : PrehydrateValueConfig) (x : jsstring)
    (st : App) :
  (document st = None ->
   (set config x st).1 = Throw ReferenceError
   /\ currentValue (set config x st).2 = x
   /\ document (set config x st).2 = None)
  /\ (forall d,
        document st = Some d -> isWellFormed x = false ->
        (set config x st).1 = Throw URIError
        /\ currentValue (set config x st).2 = x
        /\ cookieJar <$> document (set config x st).2 = Some (cookieJar d)
        /\ cookieWrites <$> document (set config x st).2
           = Some (cookieWrites d))
  /\ ((set config x st).1 = Normal tt
      <-> is_Some (document st) /\ isWellFormed x = true).
Proof.
  pose proof (encodeURIComponent_isWellFormed x) as Hwf.
  unfold set, bind, setValue, on_document, encodeURIComponent_call, ret,
    throw.
  cbn [document currentValue mounted effectQueued].
  split_and!.
  - by intros ->.
  - intros d -> Hx. apply Hwf in Hx. by rewrite Hx.
  - destruct (document st) as [d|]; cbn.
    + destruct (encodeURIComponent x) as [enc|]; cbn.
      * split; [intros _|done]. split; [done|].
        destruct (isWellFormed x); [done|].
        destruct Hwf as [_ Hwf]. by specialize (Hwf eq_refl).
      * split; [done|]. intros [_ Hx].
        destruct Hwf as [Hwf _]. by rewrite (Hwf eq_refl) in Hx.
    + split; [done|]. intros [[? ?] _]. done.
Qed.

Lemma set_partial_on_throw_witness :
  ((set sw_config (js "400") (first_render sw_config None false)).1
   = Throw ReferenceError
   /\ currentValue
        (set sw_config (js "400") (first_render sw_config None false)).2
      = js "400")
  /\ ((set sw_config [55357%N]
         (first_render sw_config (Some empty_document) true)).1
      = Throw URIError
      /\ currentValue
           (set sw_config [55357%N]
              (first_render sw_config (Some empty_document) true)).2
         = [55357%N]
      /\ cookieJar
           <$> document
                 (set sw_config [55357%N]
                    (first_render sw_config (Some empty_document) true)).2
         = Some [])
  /\ (set sw_config (js "400")
        (first_render sw_config (Some empty_document) true)).1
     = Normal tt.
Proof.
  split_and!.
  - exact (proj1 (proj1 (set_partial_on_throw sw_config (js "400")
                           (first_render sw_config None false)) eq_refl)).
  - exact (proj1 (proj2 (proj1 (set_partial_on_throw sw_config (js "400")
                                  (first_render sw_config None false))
                           eq_refl))).
  - exact (proj1 (proj1 (proj2 (set_partial_on_throw sw_config [55357%N]
                                  (first_render sw_config
                                     (Some empty_document) true)))
                    empty_document eq_refl eq_refl)).
  - exact (proj1 (proj2 (proj1 (proj2
             (set_partial_on_throw sw_config [55357%N]
                (first_render sw_config (Some empty_document) true)))
             empty_document eq_refl eq_refl))).
  - exact (proj1 (proj2 (proj2 (proj1 (proj2
             (set_partial_on_throw sw_config [55357%N]
                (first_render sw_config (Some empty_document) true)))
             empty_document eq_refl eq_refl)))).
  - apply (proj2 (proj2 (set_partial_on_throw sw_config (js "400")
                           (first_render sw_config (Some empty_document)
                              true)))).
    split; [by eexists|reflexivity].
Defined.

Lemma jar_lookup_store_ne (name other value : jsstring)
    (jar : list (jsstring * jsstring)) :
  other <> name ->
  jar_lookup other (jar_store name value jar) = jar_lookup other jar.
Proof.
  intros Hne. induction jar as [|e rest IH]; cbn.
  - by rewrite decide_False by congruence.
  - destruct (decide (e.1 = name)) as [He|He]; cbn.
    + rewrite decide_False by congruence.
      by rewrite decide_False by congruence.
    + by rewrite IH.
Qed.


(** The document after [set], whatever the outcome. *)
Lemma set_document (config : PrehydrateValueConfig) (x : jsstring)
    (st : App) :
  document (set config x st).2
  = d ← document st;
    Some match encodeURIComponent x with
         | Some enc =>
             document_cookie_assign (cookie_assignment config enc)
               (setProperty (cssVar config) x d)
         | None => setProperty (cssVar config) x d
         end.
Proof.
  unfold set, bind, setValue, on_document, encodeURIComponent_call, ret,
    throw.
  cbn. destruct (document st) as [d|]; [|done].
  by destruct (encodeURIComponent x).
Qed.

(** X10.  [set] for one descriptor leaves the others alone, whether it
    returns or throws: a hook of another name keeps its value, so another
    cell's [Provider] would start from the same value as before, and the
    cookie stored under another name stays as it is. *)
Theorem set_leaves_other_descriptors
    (config other : PrehydrateValueConfig) (x : jsstring) (st : App) :
  (cssVar other <> cssVar config ->
   getPropertyValue (cssVar other) <$> document (set config x st).2
   = getPropertyValue (cssVar other) <$> document st
   /\ Provider_init other (document (set config x st).2)
      = Provider_init other (document st))
  /\ (cookie_name_ok (cookie config) -> cookie other <> cookie config ->
      (fun d => jar_lookup (cookie other) (cookieJar d))
        <$> document (set config x st).2
      = (fun d => jar_lookup (cookie other) (cookieJar d))
          <$> document st).
Proof.
  rewrite set_document. destruct (document st) as [d|]; [|done]. cbn.
  split.
  - intros Hne.
    assert (H : getPropertyValue (cssVar other)
                  match encodeURIComponent x with
                  | Some enc =>
                      document_cookie_assign (cookie_assignment config enc)
                        (setProperty (cssVar config) x d)
                  | None => setProperty (cssVar config) x d
                  end
                = getPropertyValue (cssVar other) d).
    { unfold getPropertyValue.
      destruct (encodeURIComponent x); cbn; by rewrite lookup_insert_ne. }
    by rewrite H.
  - intros Hok Hne.
    destruct (encodeURIComponent x) as [enc|] eqn:E; cbn; [|done].
    rewrite cookie_pair_assignment
      by (done || by eapply encodeURIComponent_plain).
    by rewrite jar_lookup_store_ne.
Qed.

Lemma set_leaves_other_descriptors_witness :
  let d := {| style := {[ js "--right-sidebar-width" := js "300" ]};
              cookieJar := [(js "right-sidebar-width", js "300")];
              cookieWrites := [] |} in
  let st' := (set leftSidebarWidth (js "350")
                (first_render leftSidebarWidth (Some d) true)).2 in
  Provider_init rightSidebarWidth (document st') = js "300"
  /\ (fun d => jar_lookup (js "right-sidebar-width") (cookieJar d))
       <$> document st'
     = Some (Some (js "300")).
Proof.
  intros d st'.
  destruct (set_leaves_other_descriptors leftSidebarWidth rightSidebarWidth
              (js "350") (first_render leftSidebarWidth (Some d) true))
    as [Hhook Hjar].
  split.
  - unfold st'. rewrite (proj2 (Hhook ltac:(compute_done))). reflexivity.
  - unfold st'. cbn [cookie rightSidebarWidth] in Hjar.
    rewrite (Hjar ltac:(by_decide) ltac:(compute_done)). reflexivity.
Defined.



(** ** Traces of events *)

Section Traces.
Variable config : PrehydrateValueConfig.

Lemma run_effects_value (st : App) :
  currentValue (run_effects st) = currentValue st
  /\ document (run_effects st) = document st.
Proof. unfold run_effects. by destruct (effectQueued st). Qed.

(** X12.  After any trace of events the state cell holds the argument of
    the last call of the setter, or its first value when there was none,
    also when a call has thrown; where there is a [document], the hook has
    a custom property name and the last argument is a value the style
    declaration keeps as written, the hook holds the same. *)
Theorem value_is_last_set (st : App) (es : list Event) :
  currentValue (run_events config st es)
  = default (currentValue st) (last_set es)
  /\ (custom_property_name (cssVar config) = true ->
      (forall x, last_set es = Some x -> verbatim_value x) ->
      getPropertyValue (cssVar config) <$> document (run_events config st es)
      = (fun d => default (getPropertyValue (cssVar config) d) (last_set es))
          <$> document st).
Proof.
  assert (H : forall st,
             currentValue (run_events config st es)
             = default (currentValue st) (last_set es)
             /\ getPropertyValue (cssVar config)
                  <$> document (run_events config st es)
                = (fun d => default (getPropertyValue (cssVar config) d)
                              (last_set es))
                    <$> document st).
  { clear st. induction es as [|e es IH]; intros st.
    - split; [done|]. cbn. by destruct (document st).
    - change (run_events config st (e :: es))
        with (run_events config (step config st e) es).
      destruct (IH (step config st e)) as [-> ->]. destruct e as [|x].
      + cbn [step last_set]. by destruct (run_effects_value st) as [-> ->].
      + cbn [step last_set].
        destruct (set_state config x st) as [-> _].
        rewrite set_document.
        destruct (last_set es) as [y|]; destruct (document st) as [d|];
          cbn; try done.
        unfold getPropertyValue.
        destruct (encodeURIComponent x); cbn; by rewrite lookup_insert_eq. }
  destruct (H st) as [H1 H2]. by split.
Qed.

Lemma effectQueued_stays_false (st : App) (es : list Event) :
  effectQueued st = false -> effectQueued (run_events config st es) = false.
Proof.
  revert st; induction es as [|e es IH]; intros st Hq; [done|].
  apply IH. destruct e as [|x]; cbn [step].
  - unfold run_effects. by rewrite Hq.
  - by destruct (set_state config x st) as (_ & _ & ->).
Qed.

(** X13.  The mount transition happens at most once: once the effect has
    had its turn, later turns change nothing, whatever happened in
    between. *)
Theorem mount_transition_once (st : App) (es : list Event) :
  run_effects (run_events config (run_effects st) es)
  = run_events config (run_effects st) es.
Proof.
  assert (Hq : effectQueued (run_effects st) = false).
  { unfold run_effects. by destruct (effectQueued st) eqn:E. }
  unfold run_effects at 1.
  by rewrite (effectQueued_stays_false _ es Hq).
Qed.

End Traces.

Lemma value_is_last_set_witness :
  getPropertyValue (js "--sw")
    <$> document
          (run_events sw_config
             (first_render sw_config (Some empty_document) true)
             [CallSet (js " 300 "); RunEffects; CallSet (js "400")])
  = Some (js "400").
Proof.
  apply (proj2 (value_is_last_set sw_config
                  (first_render sw_config (Some empty_document) true)
                  [CallSet (js " 300 "); RunEffects; CallSet (js "400")])).
  - reflexivity.
  - intros x [= <-]. unfold verbatim_value. compute_done.
Defined.

Section Store.
Variable config : PrehydrateValueConfig.

(** X17.  After any trace of events on a [document], the cookie store
    holds under the descriptor's name the percent-encoding of the last
    value set that [encodeURIComponent] accepts, or what it held before
    when there was none; a call that throws leaves the older value in the
    store, while the state cell has moved on. *)
Theorem store_holds_last_encoded_set (st : App) (d : Document)
    (es : list Event) :
  cookie_name_ok (cookie config) -> document st = Some d ->
  (fun d' => jar_lookup (cookie config) (cookieJar d'))
    <$> document (run_events config st es)
  = Some match last_encoded es with
         | Some enc => Some enc
         | None => jar_lookup (cookie config) (cookieJar d)
         end.
Proof.
  intros Hok Hd. induction es as [|e es IH] using rev_ind.
  - cbn. by rewrite Hd.
  - unfold run_events in *. rewrite fold_left_app. cbn [fold_left].
    unfold last_encoded in *. rewrite omap_app.
    destruct e as [|x]; cbn [step omap].
    + rewrite app_nil_r.
      by destruct (run_effects_value
                     (fold_left (step config) es st)) as [_ ->].
    + rewrite set_document.
      destruct (document (fold_left (step config) es st)) as [d'|];
        [|done].
      cbn in IH |- *. destruct (encodeURIComponent x) as [enc|] eqn:E.
      * cbn. rewrite last_snoc.
        rewrite cookie_pair_assignment
          by (done || by eapply encodeURIComponent_plain).
        by rewrite jar_lookup_store.
      * cbn. by rewrite app_nil_r.
Qed.

End Store.

Lemma store_holds_last_encoded_set_witness :
  (fun d' => jar_lookup (js "sw") (cookieJar d'))
    <$> document
          (run_events sw_config
             (first_render sw_config (Some empty_document) true)
             [CallSet (js "a b"); RunEffects; CallSet [55357%N]])
  = Some (Some (js "a%20b"))
  /\ currentValue
       (run_events sw_config
          (first_render sw_config (Some empty_document) true)
          [CallSet (js "a b"); RunEffects; CallSet [55357%N]])
     = [55357%N].
Proof.
  split; [|reflexivity].
  exact (store_holds_last_encoded_set sw_config
           (first_render sw_config (Some empty_document) true)
           empty_document
           [CallSet (js "a b"); RunEffects; CallSet [55357%N]]
           ltac:(by_decide) eq_refl).
Defined.

(** ** The width label of the example application *)

(** X14.  [WidthLabel] renders the skeleton on the server and on the
    first client render, whatever the cookie store and the hooks hold, so
    hydration finds the markup the server sent; it keeps the skeleton
    while only the setter is called, and after the mount transition it
    shows the current value followed by [px].  Outside a [Provider] it
    throws. *)
Theorem WidthLabel_hydrates_without_mismatch (side : Side) :
  (forall server_document client_document,
     render_WidthLabel side
       (first_render (values side) server_document false)
     = Normal Skeleton
     /\ render_WidthLabel side
          (first_render (values side) client_document true)
        = Normal Skeleton)
  /\ (forall doc xs,
        render_WidthLabel side
          (run_events (values side) (first_render (values side) doc true)
             (CallSet <$> xs))
        = Normal Skeleton)
  /\ (forall doc xs,
        let st := run_events (values side)
                    (first_render (values side) doc true)
                    ((CallSet <$> xs) ++ [RunEffects]) in
        render_WidthLabel side st = Normal (Span (currentValue st ++ js "px")))
  /\ (forall is_mounted,
        exists e, WidthLabel side None is_mounted = Throw e).
Proof.
  split_and!.
  - done.
  - intros doc xs. unfold render_WidthLabel, WidthLabel.
    fold (readForText (values side)
            (run_events (values side) (first_render (values side) doc true)
               (CallSet <$> xs))).
    rewrite readForText_unfold.
    by destruct (sets_keep_flags (values side)
                   (first_render (values side) doc true) xs) as [-> _].
  - intros doc xs st. unfold render_WidthLabel, WidthLabel.
    fold (readForText (values side) st). rewrite readForText_unfold.
    assert (mounted st = true) as ->; [|done].
    unfold st. rewrite run_events_app.
    apply run_effects_mounts. left.
    by destruct (sets_keep_flags (values side)
                   (first_render (values side) doc true) xs) as [_ ->].
  - intros m. by eexists.
Qed.

(** ** More on the lookup *)

Lemma before_semicolon_free (s : jsstring) : semicolon ∉ before_semicolon s.
Proof.
  induction s as [|c s IH]; cbn; [apply not_elem_of_nil|].
  destruct (c =? semicolon)%N eqn:E; [apply not_elem_of_nil|].
  apply N.eqb_neq in E. rewrite not_elem_of_cons. split; [congruence|done].
Qed.

Lemma before_semicolon_cut (a t : jsstring) :
  before_semicolon (a ++ semicolon :: t) = before_semicolon a.
Proof.
  induction a as [|c a IH]; cbn; [done|].
  destruct (c =? semicolon)%N; [done|]. by rewrite IH.
Qed.

Lemma startsWith_app_r (p s t : jsstring) :
  startsWith p s = true -> startsWith p (s ++ t) = true.
Proof.
  intros H. apply startsWith_inv in H as [u ->].
  rewrite <- app_assoc. apply startsWith_app.
Qed.

Lemma startsWith_length (p s : jsstring) :
  startsWith p s = true -> (length p <= length s)%nat.
Proof.
  intros H. apply startsWith_inv in H as [u ->]. rewrite length_app. lia.
Qed.

Lemma startsWith_within (p s t : jsstring) :
  (length p <= length s)%nat -> startsWith p (s ++ t) = startsWith p s.
Proof.
  revert s; induction p as [|a p IH]; intros s Hlen; [done|].
  destruct s as [|b s]; [cbn in Hlen; lia|].
  cbn [app startsWith]. rewrite IH; [done|]. cbn in Hlen. lia.
Qed.

(** An occurrence stays the first one when text is added at the end. *)
Lemma stringIndexOf_app_stable (s t p : jsstring) (i : nat) :
  stringIndexOf s p = Some i -> stringIndexOf (s ++ t) p = Some i.
Proof.
  revert i; induction s as [|b s IH]; intros i.
  - cbn. destruct (startsWith p []) eqn:E; [|done]. intros [= <-].
    apply stringIndexOf_here. destruct p; [done|discriminate].
  - pose proof (startsWith_app_r p (b :: s) t) as Hr.
    pose proof (startsWith_within p (b :: s) t) as Hw.
    change ((b :: s) ++ t) with (b :: (s ++ t)) in *. cbn [stringIndexOf].
    destruct (startsWith p (b :: s)) eqn:E.
    + intros [= <-]. by rewrite Hr.
    + destruct (stringIndexOf s p) as [k|] eqn:Ek; [|done].
      intros [= <-].
      destruct (stringIndexOf_Some _ _ _ Ek) as (Hm & Hk & _).
      apply startsWith_length in Hm. rewrite length_drop in Hm.
      rewrite Hw by (cbn; lia). by rewrite (IH k).
Qed.

(** X15.  For a name without [;], a value the lookup finds in the buffer
    holds no [;]: what reaches the hook is the default or a text without
    the delimiter. *)
Theorem lookup_value_has_no_delimiter (c n d : jsstring) :
  semicolon ∉ n ->
  Routine.f c n d = d \/ semicolon ∉ Routine.f c n d.
Proof.
  intros Hn. rewrite f_first_match by done.
  destruct (stringIndexOf c _); [right|by left].
  apply before_semicolon_free.
Qed.

Lemma lookup_value_has_no_delimiter_witness :
  semicolon ∉ Routine.f (js "; a=1; sw=400; b=2") (js "sw") (js "2;80").
Proof.
  destruct (lookup_value_has_no_delimiter (js "; a=1; sw=400; b=2")
              (js "sw") (js "2;80") ltac:(compute_done)) as [H|H].
  - by vm_compute in H.
  - exact H.
Defined.

(** X16.  For a name without [;], once the buffer holds an entry for the
    name, cookies added after it do not change what the lookup returns:
    the first entry wins. *)
Theorem lookup_first_entry_wins (c n d more : jsstring) :
  semicolon ∉ n ->
  (exists pre post, c = pre ++ (js "; " ++ n ++ js "=") ++ post) ->
  Routine.f (c ++ semicolon :: more) n d = Routine.f c n d.
Proof.
  intros Hn (pre & post & Hc). rewrite !f_first_match by done.
  destruct (stringIndexOf c (js "; " ++ n ++ js "=")) as [i|] eqn:Ei.
  - rewrite (stringIndexOf_app_stable _ _ _ _ Ei).
    destruct (stringIndexOf_Some _ _ _ Ei) as (Hm & Hi & _).
    apply startsWith_length in Hm. rewrite length_drop in Hm.
    rewrite drop_app_le by lia. apply before_semicolon_cut.
  - pose proof (stringIndexOf_None _ _ Ei (length pre)) as H.
    by rewrite Hc, drop_app_length, startsWith_app in H.
Qed.

Lemma lookup_first_entry_wins_witness :
  Routine.f (js "; a=1; sw=400" ++ semicolon :: js " sw=999") (js "sw")
    (js "280")
  = js "400".
Proof.
  rewrite (lookup_first_entry_wins (js "; a=1; sw=400") (js "sw") (js "280")
             (js " sw=999") ltac:(compute_done)).
  - reflexivity.
  - by exists (js "; a=1"), (js "400").
Defined.
